(** * Margolus block cellular automaton ("sand" rule set)

    A shallow embedding of the engine of [Source.cpp]: the 2x2 block helpers
    ([mirror_h], [match_pattern], [apply_output_template]), the rule table
    ([build_sand_rules]) and the [Margolus] structure with its constructor,
    its toroidal accessor [at] and its generation step [step].

    Conventions of the embedding.
    - C++ [int] is modelled by [Z] and the operator [%] by the truncated
      remainder [Z.rem].  Signed overflow is undefined in C++; the values the
      engine computes are coordinates below [2 * w], [2 * h], loop counters
      below [w + 3], [h + 3] and indices up to [w * h], so the two
      arithmetics agree on the grids with [2 * w], [2 * h] and [w * h] at
      most [INT_MAX].  Well-formed grids ([wf]) have such sizes.
    - [std::vector<int>] is a [list Z].  Indexing outside the vector and a
      remainder by zero are undefined behaviour in C++ and are modelled by
      [None]: a result [Some _] says that every access stayed inside the
      vector.
    - [Block = std::array<int,4>] is a record of four slots.
    - The loops of [step] carry fuel; [for2_inv] and [step_total] show that
      the fuel they are given is never exhausted.
    - [randomize] builds a [std::mt19937] from a constant seed and draws
      doubles from it: the sequence of draws and the comparison of doubles
      are parameters of the model ([draw], [ltb]).
    - Of [main], the colours, the mouse and key handlers and the stepping of
      a frame are modelled; the vertex array, the text and the [float]
      timing are not: the number of steps of a frame is an input. *)

From Stdlib Require Import ZArith Lia Bool.
From stdpp Require Import base option list numbers.

Local Open Scope Z_scope.

(** ** Blocks and rules *)

(** Slot order: top-left, top-right, bottom-left, bottom-right. *)
Record Block : Type := mkBlock { blk0 : Z; blk1 : Z; blk2 : Z; blk3 : Z }.

(** [b[i]] for [i] in [0..3]. *)
Definition slot (b : Block) (i : nat) : Z :=
  match i with
  | 0%nat => blk0 b
  | 1%nat => blk1 b
  | 2%nat => blk2 b
  | _ => blk3 b
  end.

Definition mirror_h (b : Block) : Block :=
  mkBlock (blk1 b) (blk0 b) (blk3 b) (blk2 b).

(** The loop [for (i = 0; i < 4; ++i)] of [match_pattern], with [n] the number
    of iterations left; [-1] in the pattern accepts any value. *)
Fixpoint match_pattern_from (n i : nat) (rule_pat b : Block) : bool :=
  match n with
  | O => true
  | S n' =>
      if slot rule_pat i =? -1 then match_pattern_from n' (S i) rule_pat b
      else if negb (slot rule_pat i =? slot b i) then false
      else match_pattern_from n' (S i) rule_pat b
  end.

Definition match_pattern (rule_pat b : Block) : bool :=
  match_pattern_from 4 0 rule_pat b.

(** [-1] in the template copies the input slot. *)
Definition apply_output_template (out_tpl inb : Block) : Block :=
  let pick i := if slot out_tpl i =? -1 then slot inb i else slot out_tpl i in
  mkBlock (pick 0%nat) (pick 1%nat) (pick 2%nat) (pick 3%nat).

Record Rule : Type := mkRule {
  rule_in : Block;
  rule_out : Block;
  horizontal_reflection : bool
}.

Definition build_sand_rules : list Rule :=
  [ mkRule (mkBlock 1 1 0 0) (mkBlock 0 0 1 1) true;
    mkRule (mkBlock 1 (-1) 0 (-1)) (mkBlock 0 (-1) 1 (-1)) true;
    mkRule (mkBlock 1 0 (-1) 0) (mkBlock 0 0 (-1) 1) true;
    mkRule (mkBlock 3 (-1) 0 (-1)) (mkBlock 3 (-1) 1 (-1)) true ].

(** ** Vectors *)

Definition vec_get (v : list Z) (i : Z) : option Z :=
  if i <? 0 then None else v !! Z.to_nat i.

Definition vec_set (v : list Z) (i : Z) (x : Z) : option (list Z) :=
  if (0 <=? i) && (i <? Z.of_nat (length v))
  then Some (<[Z.to_nat i := x]> v)
  else None.

(** ** The automaton *)

Record Margolus : Type := mkMargolus {
  w : Z;
  h : Z;
  cells : list Z;
  offset : bool;
  rules : list Rule
}.

(** The constructor [Margolus(W, H)], for [0 <= W * H <= INT_MAX]: the
    source multiplies two [int]s, and beyond that range the product
    overflows (or the vector cannot be built), which this definition does
    not describe.  It is used at concrete sizes and under [wf], which
    bounds the product. *)
Definition Margolus_new (W H : Z) : Margolus :=
  mkMargolus W H (replicate (Z.to_nat (W * H)) 0) false build_sand_rules.

(** The index computed by [at(x, y)]. *)
Definition at_index (m : Margolus) (x y : Z) : Z :=
  let x := Z.rem (Z.rem x (w m) + w m) (w m) in
  let y := Z.rem (Z.rem y (h m) + h m) (h m) in
  y * w m + x.

(** Reading through [at(x, y)]; a remainder by zero is undefined as well. *)
Definition at_get (m : Margolus) (x y : Z) : option Z :=
  if (w m =? 0) || (h m =? 0) then None
  else vec_get (cells m) (at_index m x y).

(** Writing through [at(x, y) = v]. *)
Definition at_set (m : Margolus) (x y v : Z) : option Margolus :=
  if (w m =? 0) || (h m =? 0) then None
  else
    c ← vec_set (cells m) (at_index m x y) v;
    Some (mkMargolus (w m) (h m) c (offset m) (rules m)).

(** The four assignments into [next] made by either branch of the rule loop. *)
Definition write_block (W H x0 y0 : Z) (out : Block) (next : list Z)
  : option (list Z) :=
  n ← vec_set next (y0 * W + x0) (blk0 out);
  n ← vec_set n (y0 * W + Z.rem (x0 + 1) W) (blk1 out);
  n ← vec_set n (Z.rem (y0 + 1) H * W + x0) (blk2 out);
  vec_set n (Z.rem (y0 + 1) H * W + Z.rem (x0 + 1) W) (blk3 out).

(** The loop [for (const auto& r : rules)] with its two [break]s: the first
    rule that matches directly or, when it is symmetric, on the mirrored
    block, writes its output; when the table is exhausted nothing is
    written. *)
Fixpoint try_rules (rs : list Rule) (W H x0 y0 : Z) (b : Block)
    (next : list Z) : option (list Z) :=
  match rs with
  | [] => Some next
  | r :: rs' =>
      if match_pattern (rule_in r) b then
        write_block W H x0 y0 (apply_output_template (rule_out r) b) next
      else if horizontal_reflection r then
        let mb := mirror_h b in
        if match_pattern (rule_in r) mb then
          let mout := apply_output_template (rule_out r) mb in
          write_block W H x0 y0 (mirror_h mout) next
        else try_rules rs' W H x0 y0 b next
      else try_rules rs' W H x0 y0 b next
  end.

(** [Block b{ at(x0,y0), at(x0 + 1,y0), at(x0,y0 + 1), at(x0 + 1,y0 + 1) }]:
    the block is sampled from the current cells. *)
Definition sample_block (m : Margolus) (x0 y0 : Z) : option Block :=
  c0 ← at_get m x0 y0;
  c1 ← at_get m (x0 + 1) y0;
  c2 ← at_get m x0 (y0 + 1);
  c3 ← at_get m (x0 + 1) (y0 + 1);
  Some (mkBlock c0 c1 c2 c3).

(** The body of the inner loop of [step] for the loop counters [bx], [by]. *)
Definition block_body (m : Margolus) (bx by_ : Z) (next : list Z)
  : option (list Z) :=
  let x0 := Z.rem bx (w m) in
  let y0 := Z.rem by_ (h m) in
  b ← sample_block m x0 y0;
  try_rules (rules m) (w m) (h m) x0 y0 b next.

(** [for (i = lo; i < hi; i += 2) s = body(i, s)].  The fuel bounds the number
    of iterations; running out of it while [i < hi] gives [None]. *)
Fixpoint for2 {S : Type} (fuel : nat) (i hi : Z) (body : Z → S → option S)
    (s : S) : option S :=
  if i <? hi then
    match fuel with
    | O => None
    | S fuel' => s' ← body i s; for2 fuel' (i + 2) hi body s'
    end
  else Some s.

(** [hi - lo] iterations always suffice (see [for_by2_fuel]). *)
Definition for_by2 {S : Type} (lo hi : Z) (body : Z → S → option S) (s : S)
  : option S :=
  for2 (Z.to_nat (hi - lo)) lo hi body s.

(** The two nested loops of [step], started on the buffer [next]. *)
Definition step_loops (m : Margolus) (next : list Z) : option (list Z) :=
  let ox := if offset m then 1 else 0 in
  let oy := if offset m then 1 else 0 in
  for_by2 oy (h m + oy)
    (λ by_ next,
       for_by2 ox (w m + ox) (λ bx next, block_body m bx by_ next) next)
    next.

(** [step] with the initial contents of the buffer [next] as a parameter. *)
Definition step_from (next0 : list Z) (m : Margolus) : option Margolus :=
  next ← step_loops m next0;
  Some (mkMargolus (w m) (h m) next (negb (offset m)) (rules m)).

(** [Margolus::step]: the buffer starts as a copy of the cells. *)
Definition step (m : Margolus) : option Margolus :=
  step_from (cells m) m.

(** [n] successive calls of [step]. *)
Fixpoint steps (n : nat) (m : Margolus) : option Margolus :=
  match n with
  | O => Some m
  | S n' => m' ← step m; steps n' m'
  end.

(** ** Notions used to state the properties *)

(** The decision taken by the rule loop for one block: the output of the
    first rule that matches directly or mirrored, [None] when no rule
    matches. *)
Fixpoint apply_one_block (rs : list Rule) (b : Block) : option Block :=
  match rs with
  | [] => None
  | r :: rs' =>
      if match_pattern (rule_in r) b then
        Some (apply_output_template (rule_out r) b)
      else if horizontal_reflection r && match_pattern (rule_in r) (mirror_h b)
      then Some (mirror_h (apply_output_template (rule_out r) (mirror_h b)))
      else apply_one_block rs' b
  end.

(** A rule matches a block, directly or (when symmetric) mirrored. *)
Definition rule_matches (r : Rule) (b : Block) : bool :=
  match_pattern (rule_in r) b
  || (horizontal_reflection r && match_pattern (rule_in r) (mirror_h b)).

(** The range of a 32-bit [int]. *)
Definition INT_MAX : Z := 2147483647.

Definition in_int (z : Z) : Prop := - INT_MAX - 1 ≤ z ≤ INT_MAX.

(** Sizes for which the [int] arithmetic of the engine does not overflow:
    the product [W * H] of the constructor, the sums [x % w + w] and
    [y % h + h] of [at], the loop bounds [w + 1], [h + 1] of [step]. *)
Definition int_sized (m : Margolus) : Prop :=
  2 * w m ≤ INT_MAX ∧ 2 * h m ≤ INT_MAX ∧ w m * h m ≤ INT_MAX.

(** Grids the constructor can build and the engine can compute on: positive
    sizes, [w * h] cells, sizes within the range of [int] arithmetic. *)
Definition wf (m : Margolus) : Prop :=
  0 < w m ∧ 0 < h m ∧ Z.of_nat (length (cells m)) = w m * h m ∧
  int_sized m.

Definition even_dims (m : Margolus) : Prop :=
  w m mod 2 = 0 ∧ h m mod 2 = 0.

(** Position of the cell [(x, y)] in the row-major vector. *)
Definition cidx (W x y : Z) : nat := Z.to_nat (y * W + x).

(** The partition offset of the current phase. *)
Definition phase_off (m : Margolus) : Z := if offset m then 1 else 0.

(** [(x0, y0)] is the top-left corner of a block of the current partition. *)
Definition is_anchor (m : Margolus) (x0 y0 : Z) : Prop :=
  0 ≤ x0 < w m ∧ 0 ≤ y0 < h m ∧
  (x0 - phase_off m) mod 2 = 0 ∧ (y0 - phase_off m) mod 2 = 0.

(** Along one axis of length [n] partitioned from offset [o]: the anchor of
    the block that holds coordinate [c], and the side of the block [c] is
    on (0 for the anchor's own column or row, 1 for the next one). *)
Definition anchor (o n c : Z) : Z :=
  if (c - o) mod 2 =? 0 then c else (c - 1) mod n.

Definition side (o c : Z) : nat :=
  if (c - o) mod 2 =? 0 then 0%nat else 1%nat.

(** The slot of its block that the cell [(x, y)] occupies. *)
Definition slot_of (o x y : Z) : nat := (2 * side o y + side o x)%nat.

Definition is_one (v : Z) : Z := if v =? 1 then 1 else 0.

(** Number of cells holding 1 (sand). *)
Fixpoint count_ones (l : list Z) : Z :=
  match l with
  | [] => 0
  | v :: l' => is_one v + count_ones l'
  end.

Definition block_ones (b : Block) : Z :=
  is_one (blk0 b) + is_one (blk1 b) + is_one (blk2 b) + is_one (blk3 b).

Definition in_domain (v : Z) : Prop := 0 ≤ v ≤ 3.

(** The four writes of [write_block] as list updates. *)
Definition put_block (W H x0 y0 : Z) (out : Block) (n : list Z) : list Z :=
  <[cidx W (Z.rem (x0 + 1) W) (Z.rem (y0 + 1) H) := blk3 out]>
    (<[cidx W x0 (Z.rem (y0 + 1) H) := blk2 out]>
      (<[cidx W (Z.rem (x0 + 1) W) y0 := blk1 out]>
        (<[cidx W x0 y0 := blk0 out]> n))).

(** The decision of the rule loop for the block of the current partition
    that holds the cell [(x, y)]. *)
Definition block_output (m : Margolus) (x y : Z) : option Block :=
  let o := phase_off m in
  b ← sample_block m (anchor o (w m) x) (anchor o (h m) y);
  apply_one_block (rules m) b.

(** What [step], started on the buffer [next0], leaves in the cell [(x, y)]
    of a grid with even sizes: the slot of the output of the cell's block
    when a rule matched that block, the buffer's initial value otherwise. *)
Definition block_result (m : Margolus) (next0 : list Z) (x y : Z)
  : option Z :=
  match block_output m x y with
  | Some out => Some (slot out (slot_of (phase_off m) x y))
  | None => next0 !! cidx (w m) x y
  end.

(** While the loops of [step] stand at the counters [by = j], [bx = i]: has
    the block anchored at [(ax, ay)] been processed already? *)
Definition block_done (j i ay ax : Z) : bool :=
  (ay <? j) || ((ay =? j) && (ax <? i)).

(** A buffer of zeros of the size of the grid. *)
Definition zero_buffer (m : Margolus) : list Z :=
  replicate (length (cells m)) 0.

(** ** Grids of the scenarios *)

(** A fresh 4x4 grid on which the caller paints the block (1,1,0,0) at
    (0,0). *)
Definition falling_grid : option Margolus :=
  m ← at_set (Margolus_new 4 4) 0 0 1;
  at_set m 1 0 1.

(** The second rule of the sand table, [{1,*,0,*} -> {0,*,1,*}], with its
    mirror flag set. *)
Definition mirror_rule : Rule :=
  mkRule (mkBlock 1 (-1) 0 (-1)) (mkBlock 0 (-1) 1 (-1)) true.

(** The 2x2 grid, in phase 0, whose single block is [b]. *)
Definition block_grid (rs : list Rule) (b : Block) : Margolus :=
  mkMargolus 2 2 [blk0 b; blk1 b; blk2 b; blk3 b] false rs.

(** The 2x2 grid made of sources only. *)
Definition source_grid : Margolus :=
  block_grid build_sand_rules (mkBlock 3 3 3 3).

(** The block at (0,0) after one step of [m]. *)
Definition block_after_step (m : Margolus) : option Block :=
  m' ← step m;
  sample_block m' 0 0.

(** ** The other operations of the engine *)

(** [Margolus::clear]: [std::fill] stores 0 in every cell. *)
Definition clear (m : Margolus) : Margolus :=
  mkMargolus (w m) (h m) ((λ _, 0) <$> cells m) (offset m) (rules m).

(** [for (i = lo; i < hi; ++i) s = body(i, s)], with fuel as in [for2]. *)
Fixpoint for1 {S : Type} (fuel : nat) (i hi : Z) (body : Z → S → option S)
    (s : S) : option S :=
  if i <? hi then
    match fuel with
    | O => None
    | S fuel' => s' ← body i s; for1 fuel' (i + 1) hi body s'
    end
  else Some s.

(** The value [randomize] stores in the cell of index [k].  The generator
    [std::mt19937 rng(12345)] and the distribution are library code: [draw k]
    stands for the value of the [k]-th call [d(rng)] on a generator freshly
    seeded with 12345, a value of the type [D] of doubles, and [ltb] for the
    comparison [<] of doubles. *)
Definition random_cell {D : Type} (ltb : D → D → bool) (draw : nat → D)
    (fill_prob : D) (k : nat) : Z :=
  if ltb (draw k) fill_prob then 1 else 0.

(** [Margolus::randomize(fill_prob)]: the generator is rebuilt from the
    constant seed at every call, and cell [i] takes the [i]-th draw. *)
Definition randomize {D : Type} (ltb : D → D → bool) (draw : nat → D)
    (fill_prob : D) (m : Margolus) : option Margolus :=
  c ← for1 (Z.to_nat (w m * h m)) 0 (w m * h m)
        (λ i c, vec_set c i (random_cell ltb draw fill_prob (Z.to_nat i)))
        (cells m);
  Some (mkMargolus (w m) (h m) c (offset m) (rules m)).





(** ** The callers in [main] *)

Definition CELL_SIZE : Z := 6.
Definition GRID_W : Z := 160.
Definition GRID_H : Z := 120.

(** [sf::Color]: four components; the three-argument constructor sets alpha
    to 255, and [sf::Color::Magenta] is (255, 0, 255). *)
Record Color : Type := mkColor { red : Z; green : Z; blue : Z; alpha : Z }.

Definition rgb (r g b : Z) : Color := mkColor r g b 255.

Definition Magenta : Color := rgb 255 0 255.

Definition color_for_state (s : Z) : Color :=
  if s =? 0 then rgb 20 20 20
  else if s =? 1 then rgb 212 175 55
  else if s =? 2 then rgb 100 40 20
  else if s =? 3 then rgb 230 230 230
  else Magenta.

(** [mp.x / CELL_SIZE]: integer division truncates toward zero. *)
Definition grid_coord (mp : Z) : Z := Z.quot mp CELL_SIZE.

(** The guard [gx >= 0 && gx < GRID_W && gy >= 0 && gy < GRID_H]. *)
Definition in_grid (gx gy : Z) : bool :=
  (0 <=? gx) && (gx <? GRID_W) && (0 <=? gy) && (gy <? GRID_H).

(** Left button held with the mouse at pixel [(mx, my)]:
    [sim.at(gx, gy) = brush_state] under the guard. *)
Definition paint (brush_state : Z) (mx my : Z) (sim : Margolus)
  : option Margolus :=
  let gx := grid_coord mx in
  let gy := grid_coord my in
  if in_grid gx gy then at_set sim gx gy brush_state else Some sim.

(** Right button held: [sim.at(gx, gy) = (sim.at(gx, gy) + 1) % 4] under the
    guard. *)
Definition cycle_cell (mx my : Z) (sim : Margolus) : option Margolus :=
  let gx := grid_coord mx in
  let gy := grid_coord my in
  if in_grid gx gy then
    v ← at_get sim gx gy;
    at_set sim gx gy (Z.rem (v + 1) 4)
  else Some sim.

(** The keys [main] tells apart. *)
Inductive Key : Type :=
  | KSpace | KS | KC | KR | KNum1 | KNum2 | KNum3 | KNum4 | KUp | KDown
  | KOther.

(** The events [main] tells apart.  A mouse event carries what the two calls
    of [isButtonPressed] and of [getPosition] return. *)
Inductive Event : Type :=
  | Closed
  | KeyPressed (k : Key)
  | MouseEvent (lbutton rbutton : bool) (lx ly rx ry : Z)
  | OtherEvent.

(** The state of [main] that the automaton depends on.  The vertex array,
    the text and the two [float]s [accumulator] and [step_interval] are left
    out: they never flow into the grid, except through the number of steps
    of a frame, which is an input of [frame] below. *)
Record App : Type := mkApp {
  sim : Margolus;
  running : bool;
  brush_state : Z;
  window_open : bool
}.

Definition set_sim (a : App) (s : Margolus) : App :=
  mkApp s (running a) (brush_state a) (window_open a).

Definition set_brush (a : App) (b : Z) : App :=
  mkApp (sim a) (running a) b (window_open a).

(** The body of [while (window.pollEvent(ev))], without its calls of
    [update_vertices]. *)
Definition handle_event {D : Type} (ltb : D → D → bool) (draw : nat → D)
    (p009 : D) (ev : Event) (a : App) : option App :=
  match ev with
  | Closed => Some (mkApp (sim a) (running a) (brush_state a) false)
  | KeyPressed k =>
      match k with
      | KSpace =>
          Some (mkApp (sim a) (negb (running a)) (brush_state a)
                  (window_open a))
      | KS => s ← step (sim a); Some (set_sim a s)
      | KC => Some (set_sim a (clear (sim a)))
      | KR => s ← randomize ltb draw p009 (sim a); Some (set_sim a s)
      | KNum1 => Some (set_brush a 0)
      | KNum2 => Some (set_brush a 1)
      | KNum3 => Some (set_brush a 2)
      | KNum4 => Some (set_brush a 3)
      | KUp | KDown | KOther => Some a
      end
  | MouseEvent lbutton rbutton lx ly rx ry =>
      s ← (if lbutton then paint (brush_state a) lx ly (sim a)
           else Some (sim a));
      s ← (if rbutton then cycle_cell rx ry s else Some s);
      Some (set_sim a s)
  | OtherEvent => Some a
  end.

(** The inner loop over the pending events of one frame. *)
Fixpoint poll_events {D : Type} (ltb : D → D → bool) (draw : nat → D)
    (p009 : D) (evs : list Event) (a : App) : option App :=
  match evs with
  | [] => Some a
  | ev :: evs' =>
      a' ← handle_event ltb draw p009 ev a;
      poll_events ltb draw p009 evs' a'
  end.

(** One iteration of [while (window.isOpen())]: the events, then, when the
    simulation runs and the accumulated time reaches the interval, [nsteps]
    calls of [step] ([timing = Some nsteps]; the count comes from the
    [float] arithmetic and may be any [int]). *)
Definition frame {D : Type} (ltb : D → D → bool) (draw : nat → D)
    (p009 : D) (evs : list Event) (timing : option Z) (a : App)
  : option App :=
  a ← poll_events ltb draw p009 evs a;
  if running a then
    match timing with
    | Some nsteps => s ← steps (Z.to_nat nsteps) (sim a); Some (set_sim a s)
    | None => Some a
    end
  else Some a.

(** The main loop over the successive frames, until the window is closed. *)
Fixpoint main_loop {D : Type} (ltb : D → D → bool) (draw : nat → D)
    (p009 : D) (frames : list (list Event * option Z)) (a : App)
  : option App :=
  match frames with
  | [] => Some a
  | (evs, timing) :: frames' =>
      if window_open a then
        a' ← frame ltb draw p009 evs timing a;
        main_loop ltb draw p009 frames' a'
      else Some a
  end.

(** The state [main] enters its loop with. *)
Definition main_init {D : Type} (ltb : D → D → bool) (draw : nat → D)
    (p009 : D) : option App :=
  s ← randomize ltb draw p009 (Margolus_new GRID_W GRID_H);
  Some (mkApp s true 1 true).

(** What [main] relies on: a well-formed grid of the sizes of the window,
    under the sand table, with every cell in {0,1,2,3}, and a brush in
    {0,1,2,3}. *)
Definition grid_ok (s : Margolus) : Prop :=
  wf s ∧ w s = GRID_W ∧ h s = GRID_H ∧ rules s = build_sand_rules ∧
  Forall in_domain (cells s).

Definition app_ok (a : App) : Prop :=
  grid_ok (sim a) ∧ 0 ≤ brush_state a ≤ 3.

(** A grid of three columns and two rows, for the seam of odd sizes. *)
Definition seam_grid : Margolus :=
  mkMargolus 3 2 [1;0;3; 2;0;3] false build_sand_rules.

(** ** Blocks and rules: basic facts *)

(** Closed facts about a concrete grid (well-formedness, parity of the
    sizes) hold by computation. *)
Ltac grid_facts :=
  vm_compute; split_and?; first [reflexivity | discriminate].

Lemma mirror_h_involutive b : mirror_h (mirror_h b) = b.
Proof. by destruct b. Qed.

Lemma match_pattern_spec p b :
  match_pattern p b = true ↔
  ∀ i, (i < 4)%nat → slot p i = -1 ∨ slot p i = slot b i.
Proof.
  unfold match_pattern. cbn [match_pattern_from]. split.
  - intros Hm i Hi.
    destruct (Z.eqb_spec (slot p 0) (-1)), (Z.eqb_spec (slot p 0) (slot b 0)),
      (Z.eqb_spec (slot p 1) (-1)), (Z.eqb_spec (slot p 1) (slot b 1)),
      (Z.eqb_spec (slot p 2) (-1)), (Z.eqb_spec (slot p 2) (slot b 2)),
      (Z.eqb_spec (slot p 3) (-1)), (Z.eqb_spec (slot p 3) (slot b 3));
      cbn in Hm; try discriminate;
      (destruct i as [|[|[|[|?]]]]; [auto ..| lia]).
  - intros Hall.
    pose proof (Hall 0%nat ltac:(lia)) as H0.
    pose proof (Hall 1%nat ltac:(lia)) as H1.
    pose proof (Hall 2%nat ltac:(lia)) as H2.
    pose proof (Hall 3%nat ltac:(lia)) as H3.
    destruct (Z.eqb_spec (slot p 0) (-1)), (Z.eqb_spec (slot p 0) (slot b 0)),
      (Z.eqb_spec (slot p 1) (-1)), (Z.eqb_spec (slot p 1) (slot b 1)),
      (Z.eqb_spec (slot p 2) (-1)), (Z.eqb_spec (slot p 2) (slot b 2)),
      (Z.eqb_spec (slot p 3) (-1)), (Z.eqb_spec (slot p 3) (slot b 3));
      cbn; try reflexivity; intuition congruence.
Qed.

Lemma apply_one_block_None rs b :
  apply_one_block rs b = None ↔ ∀ r, r ∈ rs → rule_matches r b = false.
Proof.
  induction rs as [|r rs IH]; cbn [apply_one_block].
  - split; [intros _ r Hr; inversion Hr | done].
  - unfold rule_matches in *.
    destruct (match_pattern (rule_in r) b) eqn:Hd; cbn [orb].
    + split; [done|]. intros Hall. specialize (Hall r (list_elem_of_here _ _)).
      rewrite Hd in Hall. done.
    + destruct (horizontal_reflection r && match_pattern (rule_in r) (mirror_h b))
        eqn:Hm.
      * split; [done|]. intros Hall. specialize (Hall r (list_elem_of_here _ _)).
        rewrite Hd, Hm in Hall. done.
      * rewrite IH. split.
        -- intros Hall r' Hr'. apply elem_of_cons in Hr' as [->|Hr'].
           ++ by rewrite Hd, Hm.
           ++ by apply Hall.
        -- intros Hall r' Hr'. apply Hall. by apply list_elem_of_further.
Qed.

Lemma try_rules_spec rs W H x0 y0 b next :
  try_rules rs W H x0 y0 b next =
  match apply_one_block rs b with
  | Some out => write_block W H x0 y0 out next
  | None => Some next
  end.
Proof.
  induction rs as [|r rs IH]; cbn [try_rules apply_one_block]; [done|].
  destruct (match_pattern (rule_in r) b); [done|].
  destruct (horizontal_reflection r); cbn [andb]; [|done].
  by destruct (match_pattern (rule_in r) (mirror_h b)).
Qed.

(** ** Arithmetic of the torus *)

Lemma rem_norm n x : 0 < n → Z.rem (Z.rem x n + n) n = x mod n.
Proof.
  intros Hn.
  pose proof (Z.rem_bound_abs x n ltac:(lia)) as Hb.
  pose proof (Z.quot_rem' x n) as Hq.
  rewrite Z.rem_mod_nonneg by lia.
  replace (Z.rem x n + n) with (x + (1 - x ÷ n) * n) by lia.
  apply Z_mod_plus_full.
Qed.

Lemma rem_succ n x :
  0 ≤ x < n → Z.rem (x + 1) n = if x + 1 =? n then 0 else x + 1.
Proof.
  intros Hx. destruct (Z.eqb_spec (x + 1) n) as [->|Hne].
  - apply Z.rem_same. lia.
  - apply Z.rem_small. lia.
Qed.

Lemma rem_succ_range n x : 0 ≤ x < n → 0 ≤ Z.rem (x + 1) n < n.
Proof. intros Hx. rewrite rem_succ by done. case_match; lia. Qed.

Lemma cidx_lt W H x y (l : list Z) :
  Z.of_nat (length l) = W * H → 0 ≤ x < W → 0 ≤ y < H →
  (cidx W x y < length l)%nat.
Proof. intros Hl Hx Hy. unfold cidx. nia. Qed.

Lemma cidx_inj W x y x' y' :
  0 ≤ x < W → 0 ≤ x' < W → 0 ≤ y → 0 ≤ y' →
  cidx W x y = cidx W x' y' → x = x' ∧ y = y'.
Proof.
  unfold cidx. intros Hx Hx' Hy Hy' Heq.
  apply Z2Nat.inj in Heq; [|nia..].
  assert (y = y') as ->.
  { destruct (Z.lt_trichotomy y y') as [Hlt|[?|Hlt]]; [|done|]; exfalso.
    - assert ((y + 1) * W ≤ y' * W) by (apply Z.mul_le_mono_nonneg_r; lia). lia.
    - assert ((y' + 1) * W ≤ y * W) by (apply Z.mul_le_mono_nonneg_r; lia). lia. }
  lia.
Qed.

(** Every position of the vector is the position of a cell. *)
Lemma cidx_surj W H (i : nat) :
  0 < W → Z.of_nat i < W * H →
  ∃ x y, 0 ≤ x < W ∧ 0 ≤ y < H ∧ i = cidx W x y.
Proof.
  intros HW Hi. exists (Z.of_nat i mod W), (Z.of_nat i / W).
  pose proof (Z.mod_pos_bound (Z.of_nat i) W HW).
  pose proof (Z.div_mod (Z.of_nat i) W ltac:(lia)) as Hdm.
  assert (0 ≤ Z.of_nat i / W) by (apply Z.div_pos; lia).
  split_and!; try lia.
  - apply Z.div_lt_upper_bound; lia.
  - unfold cidx. rewrite Z.mul_comm, <- Hdm. lia.
Qed.

(** ** Vector accesses inside the grid *)

Lemma vec_get_nonneg v i : 0 ≤ i → vec_get v i = v !! Z.to_nat i.
Proof. intros Hi. unfold vec_get. case_match; [lia|done]. Qed.

Lemma vec_set_in v i x :
  0 ≤ i < Z.of_nat (length v) → vec_set v i x = Some (<[Z.to_nat i := x]> v).
Proof.
  intros Hi. unfold vec_set.
  destruct (Z.leb_spec 0 i), (Z.ltb_spec i (Z.of_nat (length v))); cbn; done || lia.
Qed.

Lemma at_index_mod m x y :
  0 < w m → 0 < h m → at_index m x y = (y mod h m) * w m + x mod w m.
Proof. intros Hw Hh. unfold at_index. by rewrite !rem_norm. Qed.

Lemma at_index_range m x y :
  0 < w m → 0 < h m → 0 ≤ at_index m x y < w m * h m.
Proof.
  intros Hw Hh. rewrite at_index_mod by done.
  pose proof (Z.mod_pos_bound x (w m) Hw).
  pose proof (Z.mod_pos_bound y (h m) Hh). nia.
Qed.

(** X5.  On grids of at most [INT_MAX / 2] columns and rows, no intermediate
    value of [at] leaves the range of [int], whatever the coordinates: the
    model over [Z] computes what the program computes. *)
Lemma at_index_in_int m x y :
  wf m → 2 * w m ≤ INT_MAX → 2 * h m ≤ INT_MAX → w m * h m ≤ INT_MAX →
  let rx := Z.rem x (w m) in
  let ry := Z.rem y (h m) in
  let X := Z.rem (rx + w m) (w m) in
  let Y := Z.rem (ry + h m) (h m) in
  in_int rx ∧ in_int (rx + w m) ∧ in_int X ∧
  in_int ry ∧ in_int (ry + h m) ∧ in_int Y ∧
  in_int (Y * w m) ∧ in_int (Y * w m + X).
Proof.
  intros (Hw & Hh & _) Bw Bh Bwh rx ry X Y.
  pose proof (Z.rem_bound_abs x (w m) ltac:(lia)) as Hrx.
  pose proof (Z.rem_bound_abs y (h m) ltac:(lia)) as Hry.
  assert (0 ≤ X < w m) as HX.
  { unfold X. rewrite Z.rem_mod_nonneg by (fold rx; lia).
    by apply Z.mod_pos_bound. }
  assert (0 ≤ Y < h m) as HY.
  { unfold Y. rewrite Z.rem_mod_nonneg by (fold ry; lia).
    by apply Z.mod_pos_bound. }
  fold rx in Hrx. fold ry in Hry. unfold in_int, INT_MAX in *.
  split_and!; nia.
Qed.

Lemma at_get_lookup m x y :
  0 < w m → 0 < h m →
  at_get m x y = cells m !! cidx (w m) (x mod w m) (y mod h m).
Proof.
  intros Hw Hh. unfold at_get.
  destruct (Z.eqb_spec (w m) 0); [lia|]. destruct (Z.eqb_spec (h m) 0); [lia|].
  cbn [orb]. pose proof (at_index_range m x y Hw Hh).
  rewrite vec_get_nonneg by lia. by rewrite at_index_mod.
Qed.

(** The four cells a block is sampled from are the four cells it is written
    to. *)
Lemma sample_block_lookup m x0 y0 :
  0 < w m → 0 < h m → 0 ≤ x0 < w m → 0 ≤ y0 < h m →
  sample_block m x0 y0 =
  (c0 ← cells m !! cidx (w m) x0 y0;
   c1 ← cells m !! cidx (w m) (Z.rem (x0 + 1) (w m)) y0;
   c2 ← cells m !! cidx (w m) x0 (Z.rem (y0 + 1) (h m));
   c3 ← cells m !! cidx (w m) (Z.rem (x0 + 1) (w m)) (Z.rem (y0 + 1) (h m));
   Some (mkBlock c0 c1 c2 c3)).
Proof.
  intros Hw Hh Hx Hy. unfold sample_block.
  rewrite !at_get_lookup by done.
  rewrite !(Z.rem_mod_nonneg (x0 + 1)), !(Z.rem_mod_nonneg (y0 + 1)) by lia.
  by rewrite (Z.mod_small x0), (Z.mod_small y0) by lia.
Qed.

Lemma sample_block_Some m x0 y0 :
  wf m → 0 ≤ x0 < w m → 0 ≤ y0 < h m →
  ∃ b, sample_block m x0 y0 = Some b ∧
    cells m !! cidx (w m) x0 y0 = Some (blk0 b) ∧
    cells m !! cidx (w m) (Z.rem (x0 + 1) (w m)) y0 = Some (blk1 b) ∧
    cells m !! cidx (w m) x0 (Z.rem (y0 + 1) (h m)) = Some (blk2 b) ∧
    cells m !! cidx (w m) (Z.rem (x0 + 1) (w m)) (Z.rem (y0 + 1) (h m))
      = Some (blk3 b).
Proof.
  intros (Hw & Hh & Hl & Hint) Hx Hy.
  pose proof (rem_succ_range _ _ Hx) as Hxr.
  pose proof (rem_succ_range _ _ Hy) as Hyd.
  rewrite sample_block_lookup by done.
  destruct (lookup_lt_is_Some_2 (cells m) _ (cidx_lt _ _ _ _ _ Hl Hx Hy)) as [c0 E0].
  destruct (lookup_lt_is_Some_2 (cells m) _ (cidx_lt _ _ _ _ _ Hl Hxr Hy)) as [c1 E1].
  destruct (lookup_lt_is_Some_2 (cells m) _ (cidx_lt _ _ _ _ _ Hl Hx Hyd)) as [c2 E2].
  destruct (lookup_lt_is_Some_2 (cells m) _ (cidx_lt _ _ _ _ _ Hl Hxr Hyd)) as [c3 E3].
  exists (mkBlock c0 c1 c2 c3). rewrite E0, E1, E2, E3. done.
Qed.

Lemma put_block_length W H x0 y0 out n :
  length (put_block W H x0 y0 out n) = length n.
Proof. unfold put_block. by rewrite !length_insert. Qed.

Lemma write_block_put W H x0 y0 out n :
  Z.of_nat (length n) = W * H → 0 ≤ x0 < W → 0 ≤ y0 < H →
  write_block W H x0 y0 out n = Some (put_block W H x0 y0 out n).
Proof.
  intros Hl Hx Hy.
  pose proof (rem_succ_range _ _ Hx) as Hxr.
  pose proof (rem_succ_range _ _ Hy) as Hyd.
  unfold write_block, put_block, cidx.
  rewrite vec_set_in by nia. cbn [mbind option_bind].
  rewrite vec_set_in by (rewrite length_insert; nia). cbn [mbind option_bind].
  rewrite vec_set_in by (rewrite !length_insert; nia). cbn [mbind option_bind].
  rewrite vec_set_in by (rewrite !length_insert; nia). done.
Qed.

(** One iteration of the inner loop, on a well-formed grid: it never leaves
    the vectors, and either performs the four writes or leaves [n] alone. *)
Lemma block_body_spec m bx by_ n :
  wf m → 0 ≤ bx → 0 ≤ by_ → Z.of_nat (length n) = w m * h m →
  ∃ b, sample_block m (Z.rem bx (w m)) (Z.rem by_ (h m)) = Some b ∧
    block_body m bx by_ n =
    Some (match apply_one_block (rules m) b with
          | Some out =>
              put_block (w m) (h m) (Z.rem bx (w m)) (Z.rem by_ (h m)) out n
          | None => n
          end).
Proof.
  intros Hwf Hbx Hby Hl. pose proof Hwf as (Hw & Hh & _).
  assert (0 ≤ Z.rem bx (w m) < w m) as Hx.
  { rewrite Z.rem_mod_nonneg by lia. by apply Z.mod_pos_bound. }
  assert (0 ≤ Z.rem by_ (h m) < h m) as Hy.
  { rewrite Z.rem_mod_nonneg by lia. by apply Z.mod_pos_bound. }
  destruct (sample_block_Some m _ _ Hwf Hx Hy) as (b & Hb & _).
  exists b. split; [done|]. unfold block_body. rewrite Hb. cbn [mbind option_bind].
  rewrite try_rules_spec. destruct (apply_one_block (rules m) b); [|done].
  by apply write_block_put.
Qed.

(** ** The loops *)

(** Invariant rule for [for2]: with fuel for [hi - i] iterations the loop
    ends through its test, in a state that satisfies the invariant. *)
Lemma for2_inv {S : Type} (I : Z → S → Prop) (body : Z → S → option S) hi :
  (∀ j s, j < hi → I j s → ∃ s', body j s = Some s' ∧ I (j + 2) s') →
  ∀ fuel i s, hi - i ≤ Z.of_nat fuel → I i s →
  ∃ j s', for2 fuel i hi body s = Some s' ∧ hi ≤ j ∧ I j s'.
Proof.
  intros Hbody fuel. induction fuel as [|fuel IH]; intros i s Hfuel Hi.
  - exists i, s. cbn. destruct (Z.ltb_spec i hi); [lia|]. auto.
  - cbn [for2]. destruct (Z.ltb_spec i hi) as [Hlt|Hge].
    + destruct (Hbody i s Hlt Hi) as (s' & -> & Hi').
      cbn [mbind option_bind]. apply IH; [lia|done].
    + exists i, s. auto.
Qed.

(** More fuel than [hi - i] changes nothing. *)
Lemma for2_fuel {S : Type} (body : Z → S → option S) hi :
  ∀ f1 f2 i s, hi - i ≤ Z.of_nat f1 → hi - i ≤ Z.of_nat f2 →
  for2 f1 i hi body s = for2 f2 i hi body s.
Proof.
  induction f1 as [|f1 IH]; intros f2 i s H1 H2.
  - destruct f2; cbn; destruct (Z.ltb_spec i hi); done || lia.
  - destruct f2; cbn [for2]; destruct (Z.ltb_spec i hi); try done; try lia.
    destruct (body i s); cbn [mbind option_bind]; [|done].
    apply IH; lia.
Qed.

Lemma for_by2_fuel {S : Type} (body : Z → S → option S) lo hi s fuel :
  hi - lo ≤ Z.of_nat fuel → for2 fuel lo hi body s = for_by2 lo hi body s.
Proof. intros Hf. unfold for_by2. apply for2_fuel; lia. Qed.

Lemma for_by2_inv {S : Type} (I : Z → S → Prop) (body : Z → S → option S)
    lo hi s :
  (∀ j s, j < hi → I j s → ∃ s', body j s = Some s' ∧ I (j + 2) s') →
  I lo s →
  ∃ j s', for_by2 lo hi body s = Some s' ∧ hi ≤ j ∧ I j s'.
Proof.
  intros Hbody Hlo. unfold for_by2.
  eapply for2_inv; [exact Hbody|lia|exact Hlo].
Qed.

(** Invariant rule for the nested loops of [step]: [I j i n] relates the
    counters [by = j], [bx = i] to the buffer [n]. *)
Lemma step_loops_inv m next0 (I : Z → Z → list Z → Prop) :
  wf m →
  I (phase_off m) (phase_off m) next0 →
  (∀ j i n, j < h m + phase_off m → i < w m + phase_off m → I j i n →
     0 ≤ i ∧ 0 ≤ j ∧ Z.of_nat (length n) = w m * h m ∧
     ∀ b, sample_block m (Z.rem i (w m)) (Z.rem j (h m)) = Some b →
       I j (i + 2)
         (match apply_one_block (rules m) b with
          | Some out =>
              put_block (w m) (h m) (Z.rem i (w m)) (Z.rem j (h m)) out n
          | None => n
          end)) →
  (∀ j i n, j < h m + phase_off m → w m + phase_off m ≤ i → I j i n →
     I (j + 2) (phase_off m) n) →
  ∃ j n', step_loops m next0 = Some n' ∧ h m + phase_off m ≤ j ∧
    I j (phase_off m) n'.
Proof.
  intros Hwf H0 Hblock Hrow. unfold step_loops. fold (phase_off m).
  apply (for_by2_inv (λ j n, I j (phase_off m) n)); [|done].
  intros j n Hj HI.
  destruct (for_by2_inv (λ i n, I j i n)
              (λ bx next, block_body m bx j next)
              (phase_off m) (w m + phase_off m) n) as (i & n' & Hrun & Hi & HI').
  - intros i n1 Hi HI1.
    destruct (Hblock j i n1 Hj Hi HI1) as (Hi0 & Hj0 & Hlen & Hnext).
    destruct (block_body_spec m i j n1 Hwf Hi0 Hj0 Hlen) as (b & Hb & Hrun).
    eexists. split; [exact Hrun|]. by apply Hnext.
  - done.
  - exists n'. split; [done|]. by eapply Hrow.
Qed.

(** Any property of the buffer that each block write preserves holds of the
    buffer [step] ends with; in particular [step] runs to completion on every
    well-formed grid. *)
Lemma step_loops_preserve m next0 (P : list Z → Prop) :
  wf m → Z.of_nat (length next0) = w m * h m →
  P next0 →
  (∀ x0 y0 b out n,
     0 ≤ x0 < w m → 0 ≤ y0 < h m →
     sample_block m x0 y0 = Some b →
     apply_one_block (rules m) b = Some out →
     Z.of_nat (length n) = w m * h m → P n →
     P (put_block (w m) (h m) x0 y0 out n)) →
  ∃ n', step_loops m next0 = Some n' ∧
    Z.of_nat (length n') = w m * h m ∧ P n'.
Proof.
  intros Hwf Hlen HP Hput. pose proof Hwf as (Hw & Hh & _).
  assert (0 ≤ phase_off m) as Ho by (unfold phase_off; case_match; lia).
  destruct (step_loops_inv m next0
    (λ j i n, 0 ≤ j ∧ 0 ≤ i ∧ Z.of_nat (length n) = w m * h m ∧ P n))
    as (j & n' & Hrun & _ & _ & _ & Hlen' & HP'); [done|done|..].
  - intros j i n _ _ (Hj & Hi & Hl & HPn). split_and!; try done.
    intros b Hb. split_and!; try lia.
    + case_match; [by rewrite put_block_length|done].
    + destruct (apply_one_block (rules m) b) as [out|] eqn:Hout; [|done].
      apply (Hput _ _ b); try done.
      * rewrite Z.rem_mod_nonneg by lia. by apply Z.mod_pos_bound.
      * rewrite Z.rem_mod_nonneg by lia. by apply Z.mod_pos_bound.
  - intros j i n _ _ (Hj & Hi & Hl & HPn). split_and!; try done; lia.
  - eauto.
Qed.

(** ** The sand rule table, block by block *)

Ltac eqb_cases :=
  repeat match goal with
    | |- context [Z.eqb ?a ?b] =>
        destruct (Z.eqb_spec a b); try lia; subst; cbn -[Z.eqb]
    | H : context [Z.eqb ?a ?b] |- _ =>
        destruct (Z.eqb_spec a b); try lia; subst; cbn -[Z.eqb] in H
    end.

(** The output of a sand rule stays in the domain of its input. *)
Lemma sand_domain b out :
  apply_one_block build_sand_rules b = Some out →
  (∀ k, (k < 4)%nat → in_domain (slot b k)) →
  ∀ k, (k < 4)%nat → in_domain (slot out k).
Proof.
  destruct b as [a b c d]. unfold in_domain. intros Hout Hb k Hk.
  pose proof (Hb 0%nat ltac:(lia)). pose proof (Hb 1%nat ltac:(lia)).
  pose proof (Hb 2%nat ltac:(lia)). pose proof (Hb 3%nat ltac:(lia)).
  cbn -[Z.eqb] in *. clear Hb.
  eqb_cases; try discriminate; injection Hout as <-;
    (destruct k as [|[|[|[|?]]]]; cbn; lia).
Qed.

(** A sand rule only ever rewrites slots that hold 0 or 1. *)
Lemma sand_fixed b out :
  apply_one_block build_sand_rules b = Some out →
  ∀ k, (k < 4)%nat → slot b k ≠ 0 → slot b k ≠ 1 → slot out k = slot b k.
Proof.
  destruct b as [a b c d]. intros Hout k Hk. cbn -[Z.eqb] in Hout.
  eqb_cases; try discriminate; injection Hout as <-;
    (destruct k as [|[|[|[|?]]]]; cbn; lia).
Qed.

(** A sand rule never removes a 1 from its block. *)
Lemma sand_ones b out :
  apply_one_block build_sand_rules b = Some out →
  block_ones b ≤ block_ones out.
Proof.
  destruct b as [a b c d]. intros Hout. cbn -[Z.eqb] in Hout.
  eqb_cases; try discriminate; injection Hout as <-;
    unfold block_ones, is_one; cbn -[Z.eqb]; eqb_cases; lia.
Qed.

(** ** [step] on well-formed grids *)

Lemma step_from_fields next0 m m' :
  step_from next0 m = Some m' →
  w m' = w m ∧ h m' = h m ∧ rules m' = rules m ∧
  offset m' = negb (offset m) ∧ step_loops m next0 = Some (cells m').
Proof.
  unfold step_from. destruct (step_loops m next0) as [n|]; [|done].
  cbn. by intros [= <-].
Qed.

(** [step] started on any buffer of the right size runs to completion and
    yields a well-formed grid, and the buffer it ends with satisfies every
    property that the block writes preserve. *)
Lemma step_from_preserve m next0 (P : list Z → Prop) :
  wf m → Z.of_nat (length next0) = w m * h m →
  P next0 →
  (∀ x0 y0 b out n,
     0 ≤ x0 < w m → 0 ≤ y0 < h m →
     sample_block m x0 y0 = Some b →
     apply_one_block (rules m) b = Some out →
     Z.of_nat (length n) = w m * h m → P n →
     P (put_block (w m) (h m) x0 y0 out n)) →
  ∃ m', step_from next0 m = Some m' ∧ wf m' ∧ P (cells m').
Proof.
  intros Hwf Hlen HP Hput.
  destruct (step_loops_preserve m next0 P Hwf Hlen HP Hput)
    as (n' & Hrun & Hlen' & HP').
  unfold step_from. rewrite Hrun. cbn. eexists. split; [done|].
  destruct Hwf as (? & ? & ? & ?). by split_and!.
Qed.

Lemma step_total m : wf m → ∃ m', step m = Some m' ∧ wf m'.
Proof.
  intros Hwf.
  destruct (step_from_preserve m (cells m) (λ _, True)) as (m' & ? & ? & _);
    try done; [apply Hwf | eauto].
Qed.

Lemma at_get_cells_eq m m' x y :
  0 < w m → 0 < h m → w m' = w m → h m' = h m →
  at_get m' x y = cells m' !! cidx (w m) (x mod w m) (y mod h m).
Proof.
  intros Hw Hh Ew Eh. rewrite at_get_lookup by lia. by rewrite Ew, Eh.
Qed.

Lemma insert_keeps (n : list Z) (j i : nat) (x v : Z) :
  n !! i = Some v → (j = i → x = v) → <[j := x]> n !! i = Some v.
Proof.
  intros Hn Hx. destruct (decide (j = i)) as [->|Hne].
  - rewrite list_lookup_insert_eq by (by eapply lookup_lt_Some).
    by rewrite Hx.
  - by rewrite list_lookup_insert_ne.
Qed.

Lemma sample_block_slots m x0 y0 b :
  wf m → 0 ≤ x0 < w m → 0 ≤ y0 < h m →
  sample_block m x0 y0 = Some b →
  cells m !! cidx (w m) x0 y0 = Some (blk0 b) ∧
  cells m !! cidx (w m) (Z.rem (x0 + 1) (w m)) y0 = Some (blk1 b) ∧
  cells m !! cidx (w m) x0 (Z.rem (y0 + 1) (h m)) = Some (blk2 b) ∧
  cells m !! cidx (w m) (Z.rem (x0 + 1) (w m)) (Z.rem (y0 + 1) (h m))
    = Some (blk3 b).
Proof.
  intros Hwf Hx Hy Hb.
  destruct (sample_block_Some m x0 y0 Hwf Hx Hy) as (b' & Hb' & Hs).
  rewrite Hb in Hb'. by injection Hb' as <-.
Qed.

(** ** The partition of a grid with even sizes *)

Section Axis.
(** One axis of length [n], even, partitioned from the offset [o]. *)
Variables o n : Z.
Hypothesis Ho : o = 0 ∨ o = 1.
Hypothesis Hn : 0 < n.
Hypothesis Heven : n mod 2 = 0.

Lemma pred_mod c : 0 ≤ c < n → (c - 1) mod n = if c =? 0 then n - 1 else c - 1.
Proof using Hn.
  intros Hc. destruct (Z.eqb_spec c 0) as [->|Hne].
  - replace (0 - 1) with (n - 1 + (-1) * n) by lia.
    rewrite Z_mod_plus_full. apply Z.mod_small. lia.
  - apply Z.mod_small. lia.
Qed.

(** An aligned coordinate is the anchor of its own block. *)
Lemma anchor_self a :
  0 ≤ a < n → (a - o) mod 2 = 0 → anchor o n a = a ∧ side o a = 0%nat.
Proof using Type.
  intros Ha Hal. unfold anchor, side. rewrite Hal. done.
Qed.

(** Its successor on the torus lies in the same block, on the other
    side. *)
Lemma anchor_next a :
  0 ≤ a < n → (a - o) mod 2 = 0 →
  anchor o n (Z.rem (a + 1) n) = a ∧ side o (Z.rem (a + 1) n) = 1%nat ∧
  Z.rem (a + 1) n ≠ a.
Proof using Ho Hn Heven.
  intros Ha Hal. pose proof (rem_succ_range n a Ha) as Hr.
  unfold anchor, side. rewrite pred_mod by done.
  rewrite rem_succ by done.
  destruct (Z.eqb_spec (a + 1) n) as [Hw|Hw].
  - assert ((0 - o) mod 2 ≠ 0) as Hodd
      by (clear Hr; Z.div_mod_to_equations; lia).
    destruct (Z.eqb_spec ((0 - o) mod 2) 0); [done|].
    cbn. split_and!; [lia|done|].
    clear Hr; Z.div_mod_to_equations; lia.
  - assert ((a + 1 - o) mod 2 ≠ 0) as Hodd
      by (clear Hr; Z.div_mod_to_equations; lia).
    destruct (Z.eqb_spec ((a + 1 - o) mod 2) 0); [done|].
    destruct (Z.eqb_spec (a + 1) 0); [lia|].
    split_and!; [lia|done|lia].
Qed.

(** Every coordinate is its anchor or the successor of its anchor. *)
Lemma anchor_spec c :
  0 ≤ c < n →
  0 ≤ anchor o n c < n ∧ (anchor o n c - o) mod 2 = 0 ∧
  o ≤ anchor o n c ∧
  ((side o c = 0%nat ∧ c = anchor o n c) ∨
   (side o c = 1%nat ∧ c = Z.rem (anchor o n c + 1) n)).
Proof using Ho Hn Heven.
  intros Hc. unfold anchor, side. rewrite pred_mod by done.
  destruct (Z.eqb_spec ((c - o) mod 2) 0) as [Hal|Hal].
  - split_and!; try lia; try done; try (by left).
    Z.div_mod_to_equations; lia.
  - destruct (Z.eqb_spec c 0) as [->|Hc0].
    + assert (o = 1) as -> by (Z.div_mod_to_equations; lia).
      split_and!; try (Z.div_mod_to_equations; lia).
      right. split; [done|].
      replace (n - 1 + 1) with n by lia. symmetry. apply Z.rem_same. lia.
    + split_and!; try (Z.div_mod_to_equations; lia).
      right. split; [done|].
      replace (c - 1 + 1) with c by lia. symmetry. apply Z.rem_small. lia.
Qed.

(** The last aligned counter below [n + o] is below [n]. *)
Lemma aligned_below a :
  (a - o) mod 2 = 0 → a < n + o → a + 2 ≤ n + o ∧ a < n.
Proof using Ho Heven. intros Hal Ha. Z.div_mod_to_equations; lia. Qed.
End Axis.

Lemma insert_cidx_lookup W H (n : list Z) x' y' v x y :
  Z.of_nat (length n) = W * H →
  0 ≤ x' < W → 0 ≤ y' < H → 0 ≤ x < W → 0 ≤ y < H →
  <[cidx W x' y' := v]> n !! cidx W x y =
  if (x =? x') && (y =? y') then Some v else n !! cidx W x y.
Proof.
  intros Hl Hx' Hy' Hx Hy.
  destruct (Z.eqb_spec x x') as [->|Hne]; cbn [andb];
    [destruct (Z.eqb_spec y y') as [->|Hne]|].
  - apply list_lookup_insert_eq. by eapply cidx_lt.
  - apply list_lookup_insert_ne. intros E.
    apply cidx_inj in E; [|lia..]. lia.
  - apply list_lookup_insert_ne. intros E.
    apply cidx_inj in E; [|lia..]. lia.
Qed.

(** Reading the buffer after the four writes of a block. *)
Lemma put_block_lookup W H x0 y0 out (n : list Z) x y :
  Z.of_nat (length n) = W * H →
  0 ≤ x0 < W → 0 ≤ y0 < H → 0 ≤ x < W → 0 ≤ y < H →
  put_block W H x0 y0 out n !! cidx W x y =
  if (x =? Z.rem (x0 + 1) W) && (y =? Z.rem (y0 + 1) H) then Some (blk3 out)
  else if (x =? x0) && (y =? Z.rem (y0 + 1) H) then Some (blk2 out)
  else if (x =? Z.rem (x0 + 1) W) && (y =? y0) then Some (blk1 out)
  else if (x =? x0) && (y =? y0) then Some (blk0 out)
  else n !! cidx W x y.
Proof.
  intros Hl Hx0 Hy0 Hx Hy.
  pose proof (rem_succ_range _ _ Hx0) as Hxr.
  pose proof (rem_succ_range _ _ Hy0) as Hyd.
  unfold put_block.
  rewrite !(insert_cidx_lookup W H) by (rewrite ?length_insert; done).
  done.
Qed.

Lemma phase_off_cases m : phase_off m = 0 ∨ phase_off m = 1.
Proof. unfold phase_off. destruct (offset m); auto. Qed.

(** Processing the block anchored at [(i, j)] settles its four cells and
    touches no other cell. *)
Lemma block_write_tracks m next0 j i (n : list Z) b :
  wf m → even_dims m → is_anchor m i j →
  sample_block m i j = Some b →
  Z.of_nat (length n) = w m * h m →
  (∀ x y, 0 ≤ x < w m → 0 ≤ y < h m →
     n !! cidx (w m) x y =
     if block_done j i (anchor (phase_off m) (h m) y)
          (anchor (phase_off m) (w m) x)
     then block_result m next0 x y else next0 !! cidx (w m) x y) →
  ∀ x y, 0 ≤ x < w m → 0 ≤ y < h m →
    match apply_one_block (rules m) b with
    | Some out => put_block (w m) (h m) i j out n
    | None => n
    end !! cidx (w m) x y =
    if block_done j (i + 2) (anchor (phase_off m) (h m) y)
         (anchor (phase_off m) (w m) x)
    then block_result m next0 x y else next0 !! cidx (w m) x y.
Proof.
  intros (Hw & Hh & _) (Hew & Heh) (Hi & Hj & Hali & Halj) Hb Hlen IH x y Hx Hy.
  pose proof (phase_off_cases m) as Ho.
  destruct (anchor_spec _ _ Ho Hw Hew x Hx) as (Hax & Halx & _ & Hsx).
  destruct (anchor_spec _ _ Ho Hh Heh y Hy) as (Hay & Haly & _ & Hsy).
  destruct (anchor_self (phase_off m) (w m) i Hi Hali) as (Hai & _).
  destruct (anchor_self (phase_off m) (h m) j Hj Halj) as (Haj & _).
  destruct (anchor_next _ _ Ho Hw Hew i Hi Hali) as (Hair & _ & Hxr).
  destruct (anchor_next _ _ Ho Hh Heh j Hj Halj) as (Hajd & _ & Hyd).
  specialize (IH x y Hx Hy).
  destruct (decide (anchor (phase_off m) (w m) x = i
                    ∧ anchor (phase_off m) (h m) y = j)) as [[Eax Eay]|Hne].
  - rewrite Eax, Eay in IH. rewrite Eax, Eay.
    assert (block_done j (i + 2) j i = true) as ->.
    { unfold block_done. rewrite Z.eqb_refl.
      destruct (Z.ltb_spec i (i + 2)); [|lia]. by rewrite orb_true_r. }
    assert (block_done j i j i = false) as Hnd.
    { unfold block_done. by rewrite !Z.ltb_irrefl, andb_false_r. }
    rewrite Hnd in IH.
    unfold block_result, block_output.
    rewrite Eax, Eay, Hb. cbn [mbind option_bind].
    destruct (apply_one_block (rules m) b) as [out|]; [|done].
    rewrite put_block_lookup by done. unfold slot_of.
    rewrite Eax in Hsx. rewrite Eay in Hsy.
    destruct Hsx as [[-> ->]|[-> ->]], Hsy as [[-> ->]|[-> ->]];
      rewrite ?Z.eqb_refl;
      rewrite ?(proj2 (Z.eqb_neq i (Z.rem (i + 1) (w m)))) by done;
      rewrite ?(proj2 (Z.eqb_neq j (Z.rem (j + 1) (h m)))) by done;
      rewrite ?(proj2 (Z.eqb_neq (Z.rem (i + 1) (w m)) i)) by done;
      rewrite ?(proj2 (Z.eqb_neq (Z.rem (j + 1) (h m)) j)) by done;
      done.
  - assert (block_done j (i + 2) (anchor (phase_off m) (h m) y)
              (anchor (phase_off m) (w m) x)
            = block_done j i (anchor (phase_off m) (h m) y)
                (anchor (phase_off m) (w m) x)) as ->.
    { unfold block_done. f_equal.
      destruct (Z.eqb_spec (anchor (phase_off m) (h m) y) j); [|done].
      cbn [andb].
      destruct (Z.ltb_spec (anchor (phase_off m) (w m) x) (i + 2)),
        (Z.ltb_spec (anchor (phase_off m) (w m) x) i); try done;
        exfalso; clear IH Hair Hxr Hax Hsx; Z.div_mod_to_equations; lia. }
    rewrite <- IH.
    destruct (apply_one_block (rules m) b) as [out|]; [|done].
    rewrite put_block_lookup by done.
    assert (x = i ∨ x = Z.rem (i + 1) (w m) →
            anchor (phase_off m) (w m) x = i) as Hxi by (intros [->| ->]; done).
    assert (y = j ∨ y = Z.rem (j + 1) (h m) →
            anchor (phase_off m) (h m) y = j) as Hyj by (intros [->| ->]; done).
    destruct (Z.eqb_spec x (Z.rem (i + 1) (w m))), (Z.eqb_spec x i),
      (Z.eqb_spec y (Z.rem (j + 1) (h m))), (Z.eqb_spec y j);
      cbn [andb]; try done; exfalso; apply Hne; auto.
Qed.

(** The nested loops of [step] on a grid with even sizes: every cell ends
    with the value [block_result] describes.  [Q] is any further property of
    the buffer that is kept by the writes of a block whose four cells still
    hold their initial values. *)
Lemma step_loops_even m next0 (Q : list Z → Prop) :
  wf m → even_dims m → Z.of_nat (length next0) = w m * h m →
  Q next0 →
  (∀ x0 y0 b out n,
     is_anchor m x0 y0 →
     sample_block m x0 y0 = Some b →
     apply_one_block (rules m) b = Some out →
     Z.of_nat (length n) = w m * h m →
     (∀ x y, 0 ≤ x < w m → 0 ≤ y < h m →
        anchor (phase_off m) (w m) x = x0 →
        anchor (phase_off m) (h m) y = y0 →
        n !! cidx (w m) x y = next0 !! cidx (w m) x y) →
     Q n → Q (put_block (w m) (h m) x0 y0 out n)) →
  ∃ n', step_loops m next0 = Some n' ∧
    Z.of_nat (length n') = w m * h m ∧ Q n' ∧
    ∀ x y, 0 ≤ x < w m → 0 ≤ y < h m →
      n' !! cidx (w m) x y = block_result m next0 x y.
Proof.
  intros Hwf Hev Hlen HQ Hput.
  pose proof Hwf as (Hw & Hh & _). pose proof Hev as (Hew & Heh).
  pose proof (phase_off_cases m) as Ho.
  destruct (step_loops_inv m next0 (λ j i n,
    phase_off m ≤ j ≤ h m + phase_off m ∧ (j - phase_off m) mod 2 = 0 ∧
    phase_off m ≤ i ≤ w m + phase_off m ∧ (i - phase_off m) mod 2 = 0 ∧
    Z.of_nat (length n) = w m * h m ∧ Q n ∧
    ∀ x y, 0 ≤ x < w m → 0 ≤ y < h m →
      n !! cidx (w m) x y =
      if block_done j i (anchor (phase_off m) (h m) y)
           (anchor (phase_off m) (w m) x)
      then block_result m next0 x y else next0 !! cidx (w m) x y))
    as (j & n' & Hrun & Hj & HI); [done|..].
  - (* entry *)
    rewrite Z.sub_diag. split_and!; try lia; try done.
    intros x y Hx Hy.
    destruct (anchor_spec _ _ Ho Hw Hew x Hx) as (_ & _ & Hox & _).
    destruct (anchor_spec _ _ Ho Hh Heh y Hy) as (_ & _ & Hoy & _).
    unfold block_done.
    destruct (Z.ltb_spec (anchor (phase_off m) (h m) y) (phase_off m)); [lia|].
    destruct (Z.ltb_spec (anchor (phase_off m) (w m) x) (phase_off m)); [lia|].
    by rewrite andb_false_r.
  - (* one block *)
    intros j i n Hj Hi (Hjr & Halj & Hir & Hali & Hl & HQn & Htr).
    destruct (aligned_below _ _ Ho Hew i Hali Hi) as (Hi2 & Hiw).
    destruct (aligned_below _ _ Ho Heh j Halj Hj) as (Hj2 & Hjh).
    split_and!; try lia.
    rewrite (Z.rem_small i), (Z.rem_small j) by lia. intros b Hb.
    assert (is_anchor m i j) as Hanc by (unfold is_anchor; split_and!; lia).
    split_and!; try lia.
    + clear -Hali. Z.div_mod_to_equations; lia.
    + case_match; [by rewrite put_block_length|done].
    + destruct (apply_one_block (rules m) b) as [out|] eqn:Hout; [|done].
      apply (Hput i j b); try done.
      intros x y Hx Hy Eax Eay. rewrite Htr by done.
      rewrite Eax, Eay. unfold block_done.
      by rewrite !Z.ltb_irrefl, andb_false_r.
    + by apply block_write_tracks.
  - (* next row *)
    intros j i n Hj Hi (Hjr & Halj & Hir & Hali & Hl & HQn & Htr).
    destruct (aligned_below _ _ Ho Heh j Halj Hj) as (Hj2 & Hjh).
    rewrite Z.sub_diag. split_and!; try lia; try done.
    + clear -Halj. Z.div_mod_to_equations; lia.
    + intros x y Hx Hy. rewrite Htr by done.
      destruct (anchor_spec _ _ Ho Hw Hew x Hx) as (Hax & _ & Hox & _).
      destruct (anchor_spec _ _ Ho Hh Heh y Hy) as (Hay & Haly & _ & _).
      assert (block_done j i (anchor (phase_off m) (h m) y)
                (anchor (phase_off m) (w m) x)
              = block_done (j + 2) (phase_off m)
                  (anchor (phase_off m) (h m) y)
                  (anchor (phase_off m) (w m) x)) as ->; [|done].
      unfold block_done.
      destruct (Z.ltb_spec (anchor (phase_off m) (w m) x) i); [|lia].
      destruct (Z.ltb_spec (anchor (phase_off m) (w m) x) (phase_off m)); [lia|].
      rewrite andb_true_r, andb_false_r, orb_false_r.
      destruct (Z.ltb_spec (anchor (phase_off m) (h m) y) j),
        (Z.eqb_spec (anchor (phase_off m) (h m) y) j),
        (Z.ltb_spec (anchor (phase_off m) (h m) y) (j + 2)); try done;
        exfalso; clear Htr Hax Hox; Z.div_mod_to_equations; lia.
  - (* exit *)
    destruct HI as (Hjr & _ & _ & _ & Hl & HQn & Htr).
    exists n'. split_and!; try done.
    intros x y Hx Hy. rewrite Htr by done.
    destruct (anchor_spec _ _ Ho Hh Heh y Hy) as (Hay & _ & _ & _).
    unfold block_done.
    destruct (Z.ltb_spec (anchor (phase_off m) (h m) y) j); [done|lia].
Qed.

(** [step] on a grid with even sizes, started on any buffer of the right
    size. *)
Lemma step_from_even_cells m next0 :
  wf m → even_dims m → Z.of_nat (length next0) = w m * h m →
  ∃ m', step_from next0 m = Some m' ∧ wf m' ∧
    ∀ x y, 0 ≤ x < w m → 0 ≤ y < h m →
      cells m' !! cidx (w m) x y = block_result m next0 x y.
Proof.
  intros Hwf Hev Hlen.
  destruct (step_loops_even m next0 (λ _, True) Hwf Hev Hlen I)
    as (n' & Hrun & Hlen' & _ & Hcells); [done|].
  unfold step_from. rewrite Hrun. cbn. eexists. split; [done|].
  split; [|done]. destruct Hwf as (? & ? & ? & ?). by split_and!.
Qed.

(** Two vectors of the size of the grid that agree cell by cell are equal. *)
Lemma cells_ext W H (l1 l2 : list Z) :
  0 < W → Z.of_nat (length l1) = W * H → Z.of_nat (length l2) = W * H →
  (∀ x y, 0 ≤ x < W → 0 ≤ y < H → l1 !! cidx W x y = l2 !! cidx W x y) →
  l1 = l2.
Proof.
  intros HW H1 H2 Hxy. apply list_eq. intros i.
  destruct (decide (Z.of_nat i < W * H)) as [Hi|Hi].
  - destruct (cidx_surj W H i HW Hi) as (x & y & Hx & Hy & ->). by apply Hxy.
  - rewrite !lookup_ge_None_2 by lia. done.
Qed.

Lemma step_from_record next0 m m' :
  step_from next0 m = Some m' →
  m' = mkMargolus (w m) (h m) (cells m') (negb (offset m)) (rules m).
Proof.
  unfold step_from. destruct (step_loops m next0) as [n|]; [|done].
  cbn. by intros [= <-].
Qed.

(** ** Counting sand *)

Lemma count_ones_insert (l : list Z) (i : nat) (old v : Z) :
  l !! i = Some old →
  count_ones (<[i := v]> l) = count_ones l - is_one old + is_one v.
Proof.
  revert i. induction l as [|c l IH]; intros [|i] Hi; try done.
  - cbn in *. injection Hi as ->. lia.
  - change (<[S i := v]> (c :: l)) with (c :: <[i := v]> l).
    cbn [count_ones]. rewrite (IH i Hi). lia.
Qed.

(** The four writes of a block whose cells hold [b] change the number of 1s
    by the difference between the output and [b]. *)
Lemma count_ones_put_block W H x0 y0 b out (n : list Z) :
  Z.of_nat (length n) = W * H → 0 ≤ x0 < W → 0 ≤ y0 < H →
  Z.rem (x0 + 1) W ≠ x0 → Z.rem (y0 + 1) H ≠ y0 →
  n !! cidx W x0 y0 = Some (blk0 b) →
  n !! cidx W (Z.rem (x0 + 1) W) y0 = Some (blk1 b) →
  n !! cidx W x0 (Z.rem (y0 + 1) H) = Some (blk2 b) →
  n !! cidx W (Z.rem (x0 + 1) W) (Z.rem (y0 + 1) H) = Some (blk3 b) →
  count_ones (put_block W H x0 y0 out n) =
  count_ones n - block_ones b + block_ones out.
Proof.
  intros Hl Hx Hy Hxr Hyd E0 E1 E2 E3.
  pose proof (rem_succ_range _ _ Hx) as Hxr'.
  pose proof (rem_succ_range _ _ Hy) as Hyd'.
  unfold put_block, block_ones.
  rewrite (count_ones_insert _ _ (blk3 b)).
  2:{ rewrite !(insert_cidx_lookup W H) by (rewrite ?length_insert; done).
      rewrite !(proj2 (Z.eqb_neq _ _) Hxr), !(proj2 (Z.eqb_neq _ _) Hyd).
      by rewrite ?andb_false_r. }
  rewrite (count_ones_insert _ _ (blk2 b)).
  2:{ rewrite !(insert_cidx_lookup W H) by (rewrite ?length_insert; done).
      rewrite ?(proj2 (Z.eqb_neq _ _) Hxr), ?(proj2 (Z.eqb_neq _ _) Hyd).
      rewrite ?Z.eqb_refl, ?andb_false_r. cbn [andb].
      by rewrite ?(proj2 (Z.eqb_neq x0 (Z.rem (x0 + 1) W))) by done. }
  rewrite (count_ones_insert _ _ (blk1 b)).
  2:{ rewrite !(insert_cidx_lookup W H) by (rewrite ?length_insert; done).
      by rewrite (proj2 (Z.eqb_neq _ _) Hxr). }
  rewrite (count_ones_insert _ _ (blk0 b)) by done.
  lia.
Qed.

(** Which rule of the sand table rewrites a block, and what it does to the
    number of 1s: the first three rules keep it, the source rule adds one. *)
Lemma sand_rules_ones b out :
  (∀ r, r ∈ take 3 build_sand_rules →
     apply_one_block [r] b = Some out → block_ones out = block_ones b) ∧
  (∀ r, build_sand_rules !! 3%nat = Some r →
     apply_one_block [r] b = Some out → block_ones out = block_ones b + 1).
Proof.
  destruct b as [a b c d]. split.
  - intros r Hr Hout. cbn in Hr.
    repeat (apply elem_of_cons in Hr as [->|Hr]); [..|by inversion Hr];
      cbn -[Z.eqb] in Hout;
      eqb_cases; try discriminate; injection Hout as <-;
      unfold block_ones, is_one; cbn -[Z.eqb]; eqb_cases; lia.
  - intros r [= <-] Hout. cbn -[Z.eqb] in Hout.
    eqb_cases; try discriminate; injection Hout as <-;
      unfold block_ones, is_one; cbn -[Z.eqb]; eqb_cases; lia.
Qed.

(** ** The mirrored rule *)

(** One step of the 2x2 grid whose single block is [b] applies the decision
    of the rule loop to [b]. *)
Lemma block_grid_step rs b :
  block_after_step (block_grid rs b) =
  Some (default b (apply_one_block rs b)).
Proof.
  destruct b as [a b c d].
  unfold block_after_step, step, step_from, step_loops, for_by2, block_grid.
  cbv -[apply_one_block try_rules].
  rewrite !try_rules_spec.
  destruct (apply_one_block rs _) as [[a' b' c' d']|]; reflexivity.
Qed.

Lemma mirror_rule_decision a c :
  apply_one_block [mirror_rule] (mkBlock a 1 c 0) =
  Some (if (a =? 1) && (c =? 0) then mkBlock 0 1 1 0 else mkBlock a 0 c 1).
Proof.
  cbn -[Z.eqb]. eqb_cases; reflexivity.
Qed.

(** ** The loop of [randomize] *)

(** The loop of [randomize] overwrites the cells from index [i] on with the
    values [f i], [f (i + 1)], ... *)
Lemma for1_fill (f : nat → Z) N :
  ∀ fuel i (c : list Z),
    0 ≤ i → Z.of_nat (length c) = N → N - i ≤ Z.of_nat fuel →
    for1 fuel i N (λ i c, vec_set c i (f (Z.to_nat i))) c =
    Some (take (Z.to_nat i) c ++ (f <$> seq (Z.to_nat i) (Z.to_nat (N - i)))).
Proof.
  induction fuel as [|fuel IH]; intros i c Hi Hl Hf; cbn [for1];
    destruct (Z.ltb_spec i N) as [Hlt|Hge]; try lia.
  - replace (Z.to_nat (N - i)) with 0%nat by lia. cbn.
    rewrite take_ge by lia. by rewrite app_nil_r.
  - rewrite vec_set_in by lia. cbn [mbind option_bind].
    rewrite IH by (rewrite ?length_insert; lia).
    f_equal.
    replace (Z.to_nat (i + 1)) with (S (Z.to_nat i)) by lia.
    replace (Z.to_nat (N - i)) with (S (Z.to_nat (N - (i + 1)))) by lia.
    rewrite (take_S_r _ _ (f (Z.to_nat i)))
      by (apply list_lookup_insert_eq; lia).
    rewrite take_insert_ge by lia.
    cbn [seq fmap list_fmap]. by rewrite <- app_assoc.
  - replace (Z.to_nat (N - i)) with 0%nat by lia. cbn.
    rewrite take_ge by lia. by rewrite app_nil_r.
Qed.

(** On a well-formed grid [randomize] completes, and cell [i] of the result
    is decided by the [i]-th draw alone. *)
Lemma randomize_fill {D : Type} (ltb : D → D → bool) (draw : nat → D) p m :
  wf m →
  randomize ltb draw p m =
  Some (mkMargolus (w m) (h m)
          (random_cell ltb draw p <$> seq 0 (Z.to_nat (w m * h m)))
          (offset m) (rules m)).
Proof.
  intros (Hw & Hh & Hl & Hint). unfold randomize.
  rewrite (for1_fill (random_cell ltb draw p)) by lia.
  cbn [mbind option_bind]. do 2 f_equal.
  replace (w m * h m - 0) with (w m * h m) by lia. done.
Qed.

(** Under [wf] no intermediate value of [at] leaves the range of [int]. *)
Lemma at_steps_in_int m x y :
  wf m →
  in_int (Z.rem x (w m)) ∧ in_int (Z.rem x (w m) + w m) ∧
  in_int (Z.rem (Z.rem x (w m) + w m) (w m)) ∧
  in_int (Z.rem y (h m)) ∧ in_int (Z.rem y (h m) + h m) ∧
  in_int (Z.rem (Z.rem y (h m) + h m) (h m)) ∧
  in_int (Z.rem (Z.rem y (h m) + h m) (h m) * w m) ∧
  in_int (Z.rem (Z.rem y (h m) + h m) (h m) * w m
          + Z.rem (Z.rem x (w m) + w m) (w m)).
Proof.
  intros (Hw & Hh & _ & Bw & Bh & Bwh).
  pose proof (Z.rem_bound_abs x (w m) ltac:(lia)) as Hrx.
  pose proof (Z.rem_bound_abs y (h m) ltac:(lia)) as Hry.
  pose proof (rem_norm (w m) x Hw) as HX.
  pose proof (rem_norm (h m) y Hh) as HY.
  pose proof (Z.mod_pos_bound x (w m) Hw).
  pose proof (Z.mod_pos_bound y (h m) Hh).
  rewrite HX, HY. unfold in_int, INT_MAX in *. split_and!; nia.
Qed.

(** ** The claims *)

(** C1.  On a fresh 4x4 grid painted with the block (1,1,0,0) at (0,0), one
    [step] taken in phase 0 rewrites that block to (0,0,1,1), by the first
    rule of the sand table, and leaves every other cell 0. *)
Theorem falling_block_step :
  (falling_grid =
     Some (mkMargolus 4 4 [1;1;0;0; 0;0;0;0; 0;0;0;0; 0;0;0;0] false
             build_sand_rules)) ∧
  (head build_sand_rules = Some (mkRule (mkBlock 1 1 0 0) (mkBlock 0 0 1 1) true)) ∧
  (apply_one_block build_sand_rules (mkBlock 1 1 0 0) = Some (mkBlock 0 0 1 1)) ∧
  (falling_grid ≫= step =
     Some (mkMargolus 4 4 [0;0;0;0; 1;1;0;0; 0;0;0;0; 0;0;0;0] true
             build_sand_rules)) ∧
  (falling_grid ≫= block_after_step = Some (mkBlock 0 0 1 1)).
Proof. split_and!; vm_compute; reflexivity. Qed.

(** C2, as the code has it.  [mirror_h] is an involution.  Under the rule
    [{1,*,0,*} -> {0,*,1,*}] with mirror enabled, one step turns a block
    (a,1,c,0), whose mirror (1,a,0,c) matches, into (a,0,c,1), the mirror of
    the instantiated output, unless the block matches directly (a = 1 and
    c = 0), and then the direct rewrite (0,1,1,0) wins; for example (0,1,2,0)
    becomes (0,0,2,1).  The block (0,1,0,2) is matched by the rule neither
    directly nor mirrored: one step leaves it as it is under that rule alone,
    and the whole sand table rewrites it to (0,0,1,2) through its mirrored
    third rule. *)
Theorem mirrored_rule_rewrite :
  (∀ b, mirror_h (mirror_h b) = b) ∧
  (∀ a c,
     block_after_step (block_grid [mirror_rule] (mkBlock a 1 c 0)) =
     Some (if (a =? 1) && (c =? 0) then mkBlock 0 1 1 0
           else mkBlock a 0 c 1)) ∧
  (match_pattern (rule_in mirror_rule) (mkBlock 0 1 2 0) = false ∧
   match_pattern (rule_in mirror_rule) (mirror_h (mkBlock 0 1 2 0)) = true ∧
   block_after_step (block_grid [mirror_rule] (mkBlock 0 1 2 0)) =
     Some (mirror_h (apply_output_template (rule_out mirror_rule)
                       (mirror_h (mkBlock 0 1 2 0)))) ∧
   block_after_step (block_grid [mirror_rule] (mkBlock 0 1 2 0)) =
     Some (mkBlock 0 0 2 1)) ∧
  (mirror_h (mkBlock 0 1 0 2) = mkBlock 1 0 2 0 ∧
   rule_matches mirror_rule (mkBlock 0 1 0 2) = false ∧
   block_after_step (block_grid [mirror_rule] (mkBlock 0 1 0 2)) =
     Some (mkBlock 0 1 0 2) ∧
   block_after_step (block_grid build_sand_rules (mkBlock 0 1 0 2)) =
     Some (mkBlock 0 0 1 2)).
Proof.
  split; [apply mirror_h_involutive|]. split.
  - intros a c. by rewrite block_grid_step, mirror_rule_decision.
  - split_and!; vm_compute; reflexivity.
Qed.

(** C2, as the claim words it, fails: one step does not turn the block
    (0,1,0,2) into (1,0,0,2), neither under the mirrored rule alone nor under
    the sand table. *)
Lemma mirror_example_refuted :
  block_after_step (block_grid [mirror_rule] (mkBlock 0 1 0 2))
    ≠ Some (mkBlock 1 0 0 2) ∧
  block_after_step (block_grid build_sand_rules (mkBlock 0 1 0 2))
    ≠ Some (mkBlock 1 0 0 2).
Proof. vm_compute. split; discriminate. Qed.

(** C3, as the code has it.  On a well-formed grid with even sizes, [step]
    started on any buffer [next0] of the size of the grid completes, and a
    cell of the result holds the output slot of its block when a rule matched
    the block, and the initial content of the buffer otherwise: blocks that
    match no rule are not written.  So two initial buffers give the same
    next generation as soon as they agree on the cells of the unmatched
    blocks, and a buffer of zeros gives the generation of [step] exactly when
    every cell of every unmatched block is 0. *)
Theorem step_buffer_dependence m :
  wf m → even_dims m →
  (∀ next0, Z.of_nat (length next0) = w m * h m →
     ∃ m', step_from next0 m = Some m' ∧
       ∀ x y, 0 ≤ x < w m → 0 ≤ y < h m →
         cells m' !! cidx (w m) x y =
         match block_output m x y with
         | Some out => Some (slot out (slot_of (phase_off m) x y))
         | None => next0 !! cidx (w m) x y
         end) ∧
  (∀ next0 next1,
     Z.of_nat (length next0) = w m * h m →
     Z.of_nat (length next1) = w m * h m →
     (∀ x y, 0 ≤ x < w m → 0 ≤ y < h m → block_output m x y = None →
        next1 !! cidx (w m) x y = next0 !! cidx (w m) x y) →
     step_from next1 m = step_from next0 m) ∧
  (step_from (zero_buffer m) m = step m ↔
   ∀ x y, 0 ≤ x < w m → 0 ≤ y < h m → block_output m x y = None →
     cells m !! cidx (w m) x y = Some 0).
Proof.
  intros Hwf Hev. pose proof Hwf as (Hw & Hh & Hl & Hint).
  assert (∀ next0 next1,
     Z.of_nat (length next0) = w m * h m →
     Z.of_nat (length next1) = w m * h m →
     (∀ x y, 0 ≤ x < w m → 0 ≤ y < h m → block_output m x y = None →
        next1 !! cidx (w m) x y = next0 !! cidx (w m) x y) →
     step_from next1 m = step_from next0 m) as Hagree.
  { intros next0 next1 Hlen0 Hlen1 Hsame.
    destruct (step_from_even_cells m next0 Hwf Hev Hlen0)
      as (m0 & Hs0 & (_ & _ & Hl0 & _) & Hcells0).
    destruct (step_from_even_cells m next1 Hwf Hev Hlen1)
      as (m1 & Hs1 & (_ & _ & Hl1 & _) & Hcells1).
    rewrite Hs0, Hs1. f_equal.
    rewrite (step_from_record _ _ _ Hs0), (step_from_record _ _ _ Hs1).
    f_equal.
    pose proof (step_from_fields _ _ _ Hs0) as (Ew0 & Eh0 & _).
    pose proof (step_from_fields _ _ _ Hs1) as (Ew1 & Eh1 & _).
    apply (cells_ext (w m) (h m)); [done|congruence..|].
    intros x y Hx Hy. rewrite Hcells0, Hcells1 by done.
    unfold block_result.
    destruct (block_output m x y) eqn:Hout; [done|]. by apply Hsame. }
  assert (Z.of_nat (length (zero_buffer m)) = w m * h m) as Hlz
    by (unfold zero_buffer; by rewrite length_replicate).
  assert (∀ x y, 0 ≤ x < w m → 0 ≤ y < h m →
            zero_buffer m !! cidx (w m) x y = Some 0) as Hz.
  { intros x y Hx Hy. apply lookup_replicate_2.
    by apply (cidx_lt (w m) (h m)). }
  split_and!.
  - intros next0 Hlen.
    destruct (step_from_even_cells m next0 Hwf Hev Hlen)
      as (m' & Hs & _ & Hcells).
    by exists m'.
  - exact Hagree.
  - split; [intros Heq x y Hx Hy Hnone|intros Hzero].
    2:{ unfold step. apply Hagree; [done..|].
        intros x y Hx Hy Hnone. by rewrite Hz, Hzero. }
    destruct (step_from_even_cells m (zero_buffer m) Hwf Hev Hlz)
      as (mz & Hsz & _ & Hcz).
    destruct (step_from_even_cells m (cells m) Hwf Hev Hl)
      as (mc & Hsc & _ & Hcc).
    unfold step in Heq. rewrite Hsz, Hsc in Heq. injection Heq as ->.
    specialize (Hcz x y Hx Hy). specialize (Hcc x y Hx Hy).
    unfold block_result in Hcz, Hcc. rewrite Hnone in Hcz, Hcc.
    by rewrite <- Hcc, Hcz, Hz.
Qed.

(** On the grid of sources the single block matches no rule, so a buffer of
    zeros stays as it is. *)
Lemma step_buffer_dependence_witness :
  wf source_grid ∧ even_dims source_grid ∧
  ∃ m', step_from (zero_buffer source_grid) source_grid = Some m' ∧
    cells m' !! cidx 2 1 1 = Some 0.
Proof.
  assert (wf source_grid) as Hwf by grid_facts.
  assert (even_dims source_grid) as Hev by grid_facts.
  split; [exact Hwf|]. split; [exact Hev|].
  destruct (proj1 (step_buffer_dependence source_grid Hwf Hev)
              (zero_buffer source_grid) eq_refl) as (m' & Hs & Hc).
  exists m'. split; [exact Hs|].
  exact (Hc 1 1 ltac:(cbn; lia) ltac:(cbn; lia)).
Defined.

(** C3, as the claim words it, fails: on the 2x2 grid of sources, whose only
    block matches no rule, a zero-seeded buffer is left untouched, so the
    next generation is all 0 where [step] gives all 3. *)
Lemma zero_seed_differs :
  wf source_grid ∧ even_dims source_grid ∧
  step source_grid =
    Some (mkMargolus 2 2 [3;3;3;3] true build_sand_rules) ∧
  step_from (zero_buffer source_grid) source_grid =
    Some (mkMargolus 2 2 [0;0;0;0] true build_sand_rules) ∧
  step_from (zero_buffer source_grid) source_grid ≠ step source_grid.
Proof. vm_compute. split_and!; auto; discriminate. Qed.

(** C4, as the code has it.  On a well-formed grid with even sizes, a block
    of the current partition that no rule of the table matches, directly or
    mirrored, holds the same four cells after [step], which completes
    normally. *)
Theorem unmatched_block_unchanged m x0 y0 b :
  wf m → even_dims m → is_anchor m x0 y0 →
  sample_block m x0 y0 = Some b →
  (∀ r, r ∈ rules m → rule_matches r b = false) →
  ∃ m', step m = Some m' ∧ sample_block m' x0 y0 = Some b.
Proof.
  intros Hwf Hev Hanc Hb Hnone.
  pose proof Hwf as (Hw & Hh & Hl & Hint). pose proof Hev as (Hew & Heh).
  pose proof Hanc as (Hx & Hy & Halx & Haly).
  pose proof (phase_off_cases m) as Ho.
  destruct (step_from_even_cells m (cells m) Hwf Hev Hl)
    as (m' & Hs & Hwf' & Hcells).
  exists m'. split; [done|].
  pose proof (step_from_fields _ _ _ Hs) as (Ew & Eh & _).
  destruct (anchor_self (phase_off m) (w m) x0 Hx Halx) as (Hax & _).
  destruct (anchor_self (phase_off m) (h m) y0 Hy Haly) as (Hay & _).
  destruct (anchor_next _ _ Ho Hw Hew x0 Hx Halx) as (Haxr & _ & _).
  destruct (anchor_next _ _ Ho Hh Heh y0 Hy Haly) as (Hayd & _ & _).
  pose proof (rem_succ_range _ _ Hx) as Hxr.
  pose proof (rem_succ_range _ _ Hy) as Hyd.
  assert (∀ x y, 0 ≤ x < w m → 0 ≤ y < h m →
            anchor (phase_off m) (w m) x = x0 →
            anchor (phase_off m) (h m) y = y0 →
            cells m' !! cidx (w m) x y = cells m !! cidx (w m) x y) as Hsame.
  { intros x y Hx' Hy' Ex Ey. rewrite Hcells by done.
    unfold block_result, block_output. rewrite Ex, Ey, Hb. cbn [mbind option_bind].
    by rewrite (proj2 (apply_one_block_None (rules m) b) Hnone). }
  rewrite <- Hb.
  rewrite (sample_block_lookup m), (sample_block_lookup m') by lia.
  rewrite Ew, Eh. by rewrite !Hsame.
Qed.

(** The block of four sources matches no rule of the sand table. *)
Lemma unmatched_block_unchanged_witness :
  ∃ m', step source_grid = Some m' ∧
    sample_block m' 0 0 = Some (mkBlock 3 3 3 3).
Proof.
  apply unmatched_block_unchanged.
  - grid_facts.
  - grid_facts.
  - vm_compute. split_and!; auto; discriminate.
  - reflexivity.
  - apply apply_one_block_None. reflexivity.
Defined.

(** C4, as the claim words it, without the even sizes, fails: on the 3x2
    grid [1;0;3; 2;0;3] in phase 0 the loop visits the anchors (0,0) and
    (2,0); the block at (2,0) wraps onto column 0, holds (3,1,3,2) and
    matches no rule of the sand table, yet the block at (0,0), which holds
    (1,0,2,0) and shares column 0 with it, is rewritten by the third rule,
    matched directly, to (0,0,2,1), and the unmatched block ends as
    (3,0,3,2). *)
Lemma unmatched_seam_block_changed :
  wf seam_grid ∧ rules seam_grid = build_sand_rules ∧
  sample_block seam_grid 2 0 = Some (mkBlock 3 1 3 2) ∧
  (∀ r, r ∈ rules seam_grid → rule_matches r (mkBlock 3 1 3 2) = false) ∧
  step seam_grid =
    Some (mkMargolus 3 2 [0;0;3; 2;1;3] true build_sand_rules) ∧
  (step seam_grid ≫= λ m', sample_block m' 2 0) = Some (mkBlock 3 0 3 2) ∧
  (step seam_grid ≫= λ m', sample_block m' 2 0) ≠ Some (mkBlock 3 1 3 2).
Proof.
  split; [grid_facts|]. split; [reflexivity|]. split; [reflexivity|].
  split; [by apply apply_one_block_None|].
  vm_compute. split_and!; [reflexivity..|discriminate].
Qed.

(** C5.  Every [step] of a well-formed grid flips the phase exactly once, and
    after [n] calls of [step] the phase is the initial phase XOR [n mod 2]. *)
Theorem phase_alternation m n :
  wf m →
  (∃ m1, step m = Some m1 ∧ offset m1 = negb (offset m)) ∧
  (∃ m', steps n m = Some m' ∧ offset m' = xorb (offset m) (Nat.odd n)).
Proof.
  intros Hwf. split.
  - destruct (step_total m Hwf) as (m1 & Hs & _). exists m1. split; [done|].
    by apply step_from_fields in Hs as (_ & _ & _ & ? & _).
  - revert m Hwf. induction n as [|n IH]; intros m Hwf.
    + exists m. split; [done|]. by destruct (offset m).
    + destruct (step_total m Hwf) as (m1 & Hs & Hwf1).
      destruct (IH m1 Hwf1) as (m' & Hrun & Hoff).
      exists m'. cbn [steps]. rewrite Hs. cbn. split; [done|].
      apply step_from_fields in Hs as (_ & _ & _ & Hflip & _).
      rewrite Hoff, Hflip, Nat.odd_succ, <- Nat.negb_odd.
      by destruct (offset m), (Nat.odd n).
Qed.

(** Three steps of a fresh 4x4 grid. *)
Lemma phase_alternation_witness :
  wf (Margolus_new 4 4) ∧
  ∃ m', steps 3 (Margolus_new 4 4) = Some m' ∧
    offset m' = xorb (offset (Margolus_new 4 4)) (Nat.odd 3).
Proof.
  assert (wf (Margolus_new 4 4)) as Hwf by grid_facts.
  split; [exact Hwf|].
  exact (proj2 (phase_alternation (Margolus_new 4 4) 3 Hwf)).
Defined.

(** C6.  The accessor [at] is total on a well-formed grid: for all integers
    [x] and [y], negative ones included, the coordinates it normalises to are
    inside the grid (they are [x mod w] and [y mod h]), the index it computes
    is inside the vector, what it reads is the cell of the vector at that
    index, no intermediate value leaves the range of [int], and [at(-1,-1)]
    is [at(w-1, h-1)], the last cell of the vector. *)
Theorem at_toroidal m x y :
  wf m →
  let X := Z.rem (Z.rem x (w m) + w m) (w m) in
  let Y := Z.rem (Z.rem y (h m) + h m) (h m) in
  0 ≤ X < w m ∧ 0 ≤ Y < h m ∧ X = x mod w m ∧ Y = y mod h m ∧
  at_index m x y = Y * w m + X ∧
  0 ≤ at_index m x y < Z.of_nat (length (cells m)) ∧
  (∃ v, at_get m x y = Some v ∧ at_get m X Y = Some v) ∧
  at_index m (-1) (-1) = at_index m (w m - 1) (h m - 1) ∧
  at_get m (-1) (-1) = at_get m (w m - 1) (h m - 1) ∧
  at_get m x y = cells m !! Z.to_nat (Y * w m + X) ∧
  at_get m (-1) (-1) = cells m !! Z.to_nat ((h m - 1) * w m + (w m - 1)) ∧
  (in_int (Z.rem x (w m)) ∧ in_int (Z.rem x (w m) + w m) ∧ in_int X ∧
   in_int (Z.rem y (h m)) ∧ in_int (Z.rem y (h m) + h m) ∧ in_int Y ∧
   in_int (Y * w m) ∧ in_int (Y * w m + X)).
Proof.
  intros Hwf X Y. pose proof Hwf as (Hw & Hh & Hl & Hint).
  assert (X = x mod w m) as HX by (by apply rem_norm).
  assert (Y = y mod h m) as HY by (by apply rem_norm).
  pose proof (Z.mod_pos_bound x (w m) Hw).
  pose proof (Z.mod_pos_bound y (h m) Hh).
  pose proof (at_index_range m x y Hw Hh).
  assert (at_index m (-1) (-1) = at_index m (w m - 1) (h m - 1)) as Hneg.
  { rewrite !at_index_mod by done.
    replace (-1) with (w m - 1 + (-1) * w m) at 2 by lia.
    replace (-1) with (h m - 1 + (-1) * h m) at 1 by lia.
    by rewrite !Z_mod_plus_full. }
  assert (∀ x' y', at_get m x' y' =
            cells m !! Z.to_nat (y' mod h m * w m + x' mod w m)) as Hread.
  { intros x' y'. by rewrite at_get_lookup. }
  assert (∃ v, at_get m x y = Some v ∧ at_get m X Y = Some v) as Hsome.
  { rewrite !at_get_lookup by done.
    rewrite HX, HY, !Z.mod_mod by lia.
    destruct (lookup_lt_is_Some_2 (cells m) _
                (cidx_lt (w m) (h m) (x mod w m) (y mod h m) _ Hl
                   ltac:(lia) ltac:(lia))) as [v Hv].
    eauto. }
  assert (at_get m (-1) (-1) = at_get m (w m - 1) (h m - 1)) as Hgneg.
  { unfold at_get. by rewrite Hneg. }
  assert (at_get m x y = cells m !! Z.to_nat (Y * w m + X)) as Hcell.
  { by rewrite Hread, HX, HY. }
  assert (at_get m (-1) (-1) =
          cells m !! Z.to_nat ((h m - 1) * w m + (w m - 1))) as Hlast.
  { rewrite Hread.
    replace (-1) with (w m - 1 + (-1) * w m) at 2 by lia.
    replace (-1) with (h m - 1 + (-1) * h m) at 1 by lia.
    rewrite !Z_mod_plus_full, !Z.mod_small by lia. done. }
  pose proof (at_steps_in_int m x y Hwf) as Hints.
  repeat (split; [first [lia | done]|]). exact Hints.
Qed.

(** The accessor on the 3x2 grid [1;0;3; 2;0;3], whose cells differ:
    [at(-1,-1)] reads the last cell of the vector, the 3 at index 5. *)
Lemma at_toroidal_witness :
  wf seam_grid ∧
  at_get seam_grid (-1) (-1) = cells seam_grid !! 5%nat ∧
  at_get seam_grid (-1) (-1) = Some 3.
Proof.
  assert (wf seam_grid) as Hwf by grid_facts.
  split; [exact Hwf|].
  destruct (at_toroidal seam_grid (-1) (-1) Hwf)
    as (_ & _ & _ & _ & _ & _ & _ & _ & _ & _ & Hlast & _).
  split; [exact Hlast|].
  rewrite Hlast. reflexivity.
Defined.




(** C8.  Under the sand rule table, if every cell of a well-formed grid lies
    in {0,1,2,3} then [step] completes and every cell of the next generation
    lies in {0,1,2,3}. *)
Theorem step_in_domain m :
  wf m → rules m = build_sand_rules →
  Forall in_domain (cells m) →
  ∃ m', step m = Some m' ∧ Forall in_domain (cells m').
Proof.
  intros Hwf Hrules Hdom.
  destruct (step_from_preserve m (cells m) (Forall in_domain))
    as (m' & Hs & _ & Hdom'); try done; [apply Hwf| |eauto].
  intros x0 y0 b out n Hx Hy Hb Hout _ Hn. rewrite Hrules in Hout.
  destruct (sample_block_slots m x0 y0 b Hwf Hx Hy Hb) as (E0 & E1 & E2 & E3).
  assert (∀ k, (k < 4)%nat → in_domain (slot out k)) as Hk.
  { apply (sand_domain b); [done|].
    intros [|[|[|[|?]]]] ?; cbn; try lia;
      by eapply (Forall_lookup_1 in_domain (cells m)). }
  unfold put_block. repeat apply Forall_insert; try done.
  - apply (Hk 0%nat); lia.
  - apply (Hk 1%nat); lia.
  - apply (Hk 2%nat); lia.
  - apply (Hk 3%nat); lia.
Qed.

(** One step of the grid whose block is (3,1,0,2). *)
Lemma step_in_domain_witness :
  ∃ m', step (block_grid build_sand_rules (mkBlock 3 1 0 2)) = Some m' ∧
    Forall in_domain (cells m').
Proof.
  apply step_in_domain.
  - grid_facts.
  - reflexivity.
  - unfold in_domain. repeat constructor; cbn; lia.
Defined.

(** C9.  Under the sand rule table, a cell that holds 2 (ground) or 3
    (source) holds the same value at the same position after [step], on
    every well-formed grid, whatever the parity of its sizes. *)
Theorem ground_and_source_fixed m :
  wf m → rules m = build_sand_rules →
  ∃ m', step m = Some m' ∧
    (∀ i v, cells m !! i = Some v → v = 2 ∨ v = 3 → cells m' !! i = Some v) ∧
    (∀ x y v, at_get m x y = Some v → v = 2 ∨ v = 3 →
       at_get m' x y = Some v).
Proof.
  intros Hwf Hrules.
  destruct (step_from_preserve m (cells m)
    (λ n, ∀ i v, cells m !! i = Some v → v ≠ 0 → v ≠ 1 → n !! i = Some v))
    as (m' & Hs & _ & Hfix); try done; [apply Hwf| |].
  - intros x0 y0 b out n Hx Hy Hb Hout _ Hn i v Hi Hv0 Hv1.
    rewrite Hrules in Hout.
    destruct (sample_block_slots m x0 y0 b Hwf Hx Hy Hb) as (E0 & E1 & E2 & E3).
    pose proof (sand_fixed b out Hout) as Hk.
    unfold put_block. repeat apply insert_keeps; [by apply Hn|..].
    + intros <-. rewrite E0 in Hi. injection Hi as <-.
      apply (Hk 0%nat); [lia|done..].
    + intros <-. rewrite E1 in Hi. injection Hi as <-.
      apply (Hk 1%nat); [lia|done..].
    + intros <-. rewrite E2 in Hi. injection Hi as <-.
      apply (Hk 2%nat); [lia|done..].
    + intros <-. rewrite E3 in Hi. injection Hi as <-.
      apply (Hk 3%nat); [lia|done..].
  - exists m'. split; [done|].
    assert (∀ i v, cells m !! i = Some v → v = 2 ∨ v = 3 →
              cells m' !! i = Some v) as Hcells.
    { intros i v Hi Hv. apply Hfix; [done|lia..]. }
    split; [done|]. intros x y v Hget Hv.
    destruct Hwf as (Hw & Hh & _).
    apply step_from_fields in Hs as (Ew & Eh & _).
    rewrite (at_get_cells_eq m m') by done.
    rewrite at_get_lookup in Hget by done. by apply Hcells.
Qed.

(** The ground cell of the block (3,1,0,2) stays where it is. *)
Lemma ground_and_source_fixed_witness :
  ∃ m', step (block_grid build_sand_rules (mkBlock 3 1 0 2)) = Some m' ∧
    cells m' !! 3%nat = Some 2.
Proof.
  destruct (ground_and_source_fixed
              (block_grid build_sand_rules (mkBlock 3 1 0 2)))
    as (m' & Hs & Hc & _).
  - grid_facts.
  - reflexivity.
  - exists m'. split; [exact Hs|]. apply Hc; [reflexivity|auto].
Defined.

(** C10.  Under the sand rule table, on a well-formed grid with even sizes,
    [step] completes and the number of cells holding 1 does not decrease:
    each of the first three rules keeps the number of 1s of the block it
    rewrites, and the source rule adds exactly one. *)
Theorem sand_never_decreases m :
  wf m → even_dims m → rules m = build_sand_rules →
  (∃ m', step m = Some m' ∧ count_ones (cells m) ≤ count_ones (cells m')) ∧
  (∀ r b out, r ∈ take 3 build_sand_rules →
     apply_one_block [r] b = Some out → block_ones out = block_ones b) ∧
  (∀ r b out, build_sand_rules !! 3%nat = Some r →
     apply_one_block [r] b = Some out → block_ones out = block_ones b + 1).
Proof.
  intros Hwf Hev Hrules. split.
  2:{ split; intros r b out; by apply sand_rules_ones. }
  pose proof Hwf as (Hw & Hh & Hl & Hint). pose proof Hev as (Hew & Heh).
  pose proof (phase_off_cases m) as Ho.
  destruct (step_loops_even m (cells m)
              (λ n, count_ones (cells m) ≤ count_ones n) Hwf Hev Hl)
    as (n' & Hrun & _ & Hcount & _); [lia| |].
  - intros x0 y0 b out n (Hx & Hy & Halx & Haly) Hb Hout Hlen Hkeep Hn.
    rewrite Hrules in Hout.
    destruct (sample_block_slots m x0 y0 b Hwf Hx Hy Hb) as (E0 & E1 & E2 & E3).
    destruct (anchor_self (phase_off m) (w m) x0 Hx Halx) as (Hax & _).
    destruct (anchor_self (phase_off m) (h m) y0 Hy Haly) as (Hay & _).
    destruct (anchor_next _ _ Ho Hw Hew x0 Hx Halx) as (Haxr & _ & Hxr).
    destruct (anchor_next _ _ Ho Hh Heh y0 Hy Haly) as (Hayd & _ & Hyd).
    pose proof (rem_succ_range _ _ Hx) as Hxr'.
    pose proof (rem_succ_range _ _ Hy) as Hyd'.
    rewrite (count_ones_put_block _ _ _ _ b); try done.
    + pose proof (sand_ones b out Hout). lia.
    + by rewrite Hkeep.
    + by rewrite Hkeep.
    + by rewrite Hkeep.
    + by rewrite Hkeep.
  - unfold step, step_from. rewrite Hrun. cbn. eauto.
Qed.

(** The source of the block (3,1,0,2) adds a grain. *)
Lemma sand_never_decreases_witness :
  ∃ m', step (block_grid build_sand_rules (mkBlock 3 1 0 2)) = Some m' ∧
    count_ones (cells (block_grid build_sand_rules (mkBlock 3 1 0 2)))
    ≤ count_ones (cells m').
Proof.
  apply sand_never_decreases.
  - grid_facts.
  - grid_facts.
  - reflexivity.
Defined.

(** ** Further properties of the block helpers *)

Lemma match_mirror p b :
  match_pattern p (mirror_h b) = match_pattern (mirror_h p) b.
Proof.
  destruct p as [p0 p1 p2 p3], b as [a b c d].
  unfold match_pattern. cbn -[Z.eqb]. eqb_cases; reflexivity.
Qed.

Lemma template_mirror t b :
  mirror_h (apply_output_template t (mirror_h b)) =
  apply_output_template (mirror_h t) b.
Proof. destruct t, b. reflexivity. Qed.

(** X1.  [match_pattern] accepts a block exactly when every slot of the
    pattern is the wildcard -1 or equals the slot of the block, and rejects
    it exactly when some slot is neither. *)
Theorem match_pattern_slots p b :
  (match_pattern p b = true ↔
   ∀ i, (i < 4)%nat → slot p i = -1 ∨ slot p i = slot b i) ∧
  (match_pattern p b = false ↔
   ∃ i, (i < 4)%nat ∧ slot p i ≠ -1 ∧ slot p i ≠ slot b i).
Proof.
  split; [apply match_pattern_spec|].
  rewrite <- not_true_iff_false, match_pattern_spec. split.
  - intros Hnot.
    destruct (decide (slot p 0 = -1 ∨ slot p 0 = slot b 0)) as [H0|H0];
      [|exists 0%nat; split; [lia|tauto]].
    destruct (decide (slot p 1 = -1 ∨ slot p 1 = slot b 1)) as [H1|H1];
      [|exists 1%nat; split; [lia|tauto]].
    destruct (decide (slot p 2 = -1 ∨ slot p 2 = slot b 2)) as [H2|H2];
      [|exists 2%nat; split; [lia|tauto]].
    destruct (decide (slot p 3 = -1 ∨ slot p 3 = slot b 3)) as [H3|H3];
      [|exists 3%nat; split; [lia|tauto]].
    exfalso. apply Hnot. intros [|[|[|[|?]]]] ?; done || lia.
  - intros (i & Hi & Hw & Hne) Hall. destruct (Hall i Hi); done.
Qed.

(** X2.  The mirror flag of a rule is sugar: a rule with the flag set acts,
    in the rule loop, like the rule without the flag followed by the rule
    whose pattern and template are both mirrored. *)
Theorem mirror_flag_desugar pat tpl rs b W H x0 y0 next :
  apply_one_block (mkRule pat tpl true :: rs) b =
  apply_one_block
    (mkRule pat tpl false :: mkRule (mirror_h pat) (mirror_h tpl) false :: rs)
    b ∧
  try_rules (mkRule pat tpl true :: rs) W H x0 y0 b next =
  try_rules
    (mkRule pat tpl false :: mkRule (mirror_h pat) (mirror_h tpl) false :: rs)
    W H x0 y0 b next.
Proof.
  assert (apply_one_block (mkRule pat tpl true :: rs) b =
          apply_one_block
            (mkRule pat tpl false
               :: mkRule (mirror_h pat) (mirror_h tpl) false :: rs) b) as He.
  { cbn [apply_one_block rule_in rule_out horizontal_reflection andb].
    rewrite match_mirror, template_mirror.
    destruct (match_pattern pat b); [done|].
    by destruct (match_pattern (mirror_h pat) b). }
  split; [done|]. by rewrite !try_rules_spec, He.
Qed.

(** X3.  Instantiating a template yields a block that the same template,
    read as a pattern, matches; instantiating twice is instantiating once;
    and a block that already matches the template is left as it is. *)
Theorem template_output_matches t b :
  match_pattern t (apply_output_template t b) = true ∧
  apply_output_template t (apply_output_template t b) =
    apply_output_template t b ∧
  (match_pattern t b = true → apply_output_template t b = b).
Proof.
  destruct t as [t0 t1 t2 t3], b as [a b c d].
  unfold match_pattern, apply_output_template. cbn -[Z.eqb].
  split_and!.
  - eqb_cases; reflexivity.
  - eqb_cases; reflexivity.
  - intros Hm. eqb_cases; try discriminate; reflexivity.
Qed.

(** X4.  First match wins: the rule loop writes the output of the first rule
    of the table that matches the block, directly when it does, mirrored
    otherwise, whatever rules follow; when no rule matches it returns the
    buffer as it is. *)
Theorem rule_loop_first_match pre r post W H x0 y0 b next :
  (∀ r', r' ∈ pre → rule_matches r' b = false) →
  (match_pattern (rule_in r) b = true →
   try_rules (pre ++ r :: post) W H x0 y0 b next =
   write_block W H x0 y0 (apply_output_template (rule_out r) b) next) ∧
  (match_pattern (rule_in r) b = false →
   horizontal_reflection r = true →
   match_pattern (rule_in r) (mirror_h b) = true →
   try_rules (pre ++ r :: post) W H x0 y0 b next =
   write_block W H x0 y0
     (mirror_h (apply_output_template (rule_out r) (mirror_h b))) next) ∧
  (rule_matches r b = false → (∀ r', r' ∈ post → rule_matches r' b = false) →
   try_rules (pre ++ r :: post) W H x0 y0 b next = Some next).
Proof.
  intros Hpre.
  assert (∀ tl, apply_one_block (pre ++ tl) b = apply_one_block tl b) as Hskip.
  { intros tl. induction pre as [|r' pre IH]; [done|].
    cbn [app apply_one_block].
    pose proof (Hpre r' (list_elem_of_here _ _)) as Hr'.
    unfold rule_matches in Hr'. apply orb_false_elim in Hr' as [-> ->].
    apply IH. intros r'' Hr''. apply Hpre. by apply list_elem_of_further. }
  rewrite try_rules_spec, Hskip. split_and!.
  - intros Hd. cbn [apply_one_block]. by rewrite Hd.
  - intros Hd Hf Hm. cbn [apply_one_block]. by rewrite Hd, Hf, Hm.
  - intros Hr Hpost.
    assert (apply_one_block (r :: post) b = None) as ->; [|done].
    apply apply_one_block_None. intros r' Hr'.
    apply elem_of_cons in Hr' as [->|Hr']; [done|by apply Hpost].
Qed.

(** The first rule of the sand table on a falling pair, whatever follows. *)
Lemma rule_loop_first_match_witness :
  try_rules ([] ++ mkRule (mkBlock 1 1 0 0) (mkBlock 0 0 1 1) true
               :: [mirror_rule]) 2 2 0 0 (mkBlock 1 1 0 0) [1;1;0;0]
  = write_block 2 2 0 0
      (apply_output_template (mkBlock 0 0 1 1) (mkBlock 1 1 0 0)) [1;1;0;0].
Proof.
  refine (proj1 (rule_loop_first_match []
            (mkRule (mkBlock 1 1 0 0) (mkBlock 0 0 1 1) true) [mirror_rule]
            2 2 0 0 (mkBlock 1 1 0 0) [1;1;0;0] _) _).
  - intros r' Hr'. inversion Hr'.
  - reflexivity.
Defined.

(** ** Further properties of the accessor *)

Lemma at_set_insert m x y v :
  wf m →
  at_set m x y v =
  Some (mkMargolus (w m) (h m)
          (<[cidx (w m) (x mod w m) (y mod h m) := v]> (cells m))
          (offset m) (rules m)).
Proof.
  intros (Hw & Hh & Hl & Hint). unfold at_set.
  destruct (Z.eqb_spec (w m) 0); [lia|]. destruct (Z.eqb_spec (h m) 0); [lia|].
  cbn [orb]. pose proof (at_index_range m x y Hw Hh).
  rewrite vec_set_in by lia. cbn [mbind option_bind].
  by rewrite at_index_mod.
Qed.

Lemma wf_set_cells m c :
  wf m → length c = length (cells m) →
  wf (mkMargolus (w m) (h m) c (offset m) (rules m)).
Proof. intros (Hw & Hh & Hl & Hint) Hc. unfold wf. cbn. rewrite Hc. done. Qed.

(** A witness for [at_index_in_int]: the grid of [main], the coordinates
    -1 and [INT_MAX]. *)
Lemma at_index_in_int_witness :
  in_int (Z.rem (Z.rem INT_MAX (h (Margolus_new 160 120))
                 + h (Margolus_new 160 120)) (h (Margolus_new 160 120))
          * w (Margolus_new 160 120)
          + Z.rem (Z.rem (-1) (w (Margolus_new 160 120))
                   + w (Margolus_new 160 120)) (w (Margolus_new 160 120))).
Proof.
  refine (proj2 (proj2 (proj2 (proj2 (proj2 (proj2 (proj2
    (at_index_in_int (Margolus_new 160 120) (-1) INT_MAX _ _ _ _))))))));
    grid_facts.
Defined.

(** X6.  The grid is a torus: shifting the coordinates by whole widths and
    heights, in either direction, reaches the same cell. *)
Theorem at_periodic m x y k l :
  wf m →
  at_index m (x + k * w m) (y + l * h m) = at_index m x y ∧
  at_get m (x + k * w m) (y + l * h m) = at_get m x y.
Proof.
  intros (Hw & Hh & _).
  assert (at_index m (x + k * w m) (y + l * h m) = at_index m x y) as He.
  { rewrite !at_index_mod by done. by rewrite !Z_mod_plus_full. }
  split; [done|]. unfold at_get. by rewrite He.
Qed.

Lemma at_periodic_witness :
  at_get (block_grid build_sand_rules (mkBlock 3 1 0 2)) (1 + (-3) * 2) (0 + 5 * 2)
  = at_get (block_grid build_sand_rules (mkBlock 3 1 0 2)) 1 0.
Proof.
  refine (proj2 (at_periodic (block_grid build_sand_rules (mkBlock 3 1 0 2))
                   1 0 (-3) 5 _)).
  grid_facts.
Defined.

(** X7.  Writing through [at] on a well-formed grid succeeds, keeps the
    sizes, the phase, the rules and the number of cells, and the value
    written is read back at the same coordinates and at every coordinates
    that differ from them by whole widths and heights. *)
Theorem at_set_then_get m x y v :
  wf m →
  ∃ m', at_set m x y v = Some m' ∧ wf m' ∧
    w m' = w m ∧ h m' = h m ∧ offset m' = offset m ∧ rules m' = rules m ∧
    at_get m' x y = Some v ∧
    ∀ k l, at_get m' (x + k * w m) (y + l * h m) = Some v.
Proof.
  intros Hwf. pose proof Hwf as (Hw & Hh & Hl & Hint).
  eexists. split; [by apply at_set_insert|].
  pose proof (Z.mod_pos_bound x (w m) Hw).
  pose proof (Z.mod_pos_bound y (h m) Hh).
  assert (∀ x' y', x' mod w m = x mod w m → y' mod h m = y mod h m →
    at_get (mkMargolus (w m) (h m)
              (<[cidx (w m) (x mod w m) (y mod h m) := v]> (cells m))
              (offset m) (rules m)) x' y' = Some v) as Hget.
  { intros x' y' Ex Ey. rewrite at_get_lookup by done. cbn. rewrite Ex, Ey.
    apply list_lookup_insert_eq. by apply (cidx_lt (w m) (h m)). }
  split_and!; try done.
  - apply wf_set_cells; [done|]. by rewrite length_insert.
  - by apply Hget.
  - intros k l. apply Hget; by rewrite Z_mod_plus_full.
Qed.

Lemma at_set_then_get_witness :
  ∃ m', at_set (Margolus_new 4 6) (-1) 7 2 = Some m' ∧ at_get m' (-1) 7 = Some 2.
Proof.
  destruct (at_set_then_get (Margolus_new 4 6) (-1) 7 2)
    as (m' & Hs & _ & _ & _ & _ & _ & Hg & _).
  - grid_facts.
  - exists m'. split; [exact Hs|exact Hg].
Defined.

(** X8.  Writing through [at] changes one cell only: every coordinates that
    normalise to another cell read what they read before. *)
Theorem at_set_other m x y v x' y' :
  wf m →
  x' mod w m ≠ x mod w m ∨ y' mod h m ≠ y mod h m →
  ∃ m', at_set m x y v = Some m' ∧ at_get m' x' y' = at_get m x' y'.
Proof.
  intros Hwf Hne. pose proof Hwf as (Hw & Hh & Hl & Hint).
  eexists. split; [by apply at_set_insert|].
  rewrite !at_get_lookup by done. cbn.
  pose proof (Z.mod_pos_bound x (w m) Hw).
  pose proof (Z.mod_pos_bound y (h m) Hh).
  pose proof (Z.mod_pos_bound x' (w m) Hw).
  pose proof (Z.mod_pos_bound y' (h m) Hh).
  apply list_lookup_insert_ne. intros E.
  apply cidx_inj in E; [|lia..]. lia.
Qed.

Lemma at_set_other_witness :
  ∃ m', at_set (block_grid build_sand_rules (mkBlock 3 1 0 2)) 0 0 1 = Some m' ∧
    at_get m' 1 1 = at_get (block_grid build_sand_rules (mkBlock 3 1 0 2)) 1 1.
Proof.
  apply at_set_other.
  - grid_facts.
  - left. vm_compute. discriminate.
Defined.



(** ** The constructor, [clear] and uniform grids *)

Lemma clear_cells m : cells (clear m) = replicate (length (cells m)) 0.
Proof. cbn. by apply const_fmap. Qed.

Lemma wf_clear m : wf m → wf (clear m).
Proof.
  intros Hwf. apply (wf_set_cells m); [done|]. by rewrite length_fmap.
Qed.

Lemma count_ones_replicate_0 n : count_ones (replicate n 0) = 0.
Proof. induction n as [|n IH]; [done|]. cbn [replicate count_ones]. by rewrite IH. Qed.

(** No rule of the sand table matches a block of four equal cells. *)
Lemma sand_uniform_none v :
  apply_one_block build_sand_rules (mkBlock v v v v) = None.
Proof. cbn -[Z.eqb]. eqb_cases; reflexivity. Qed.

(** A uniform grid, under the sand table, is a fixed point of [step]. *)
Lemma uniform_step m v :
  wf m → rules m = build_sand_rules →
  cells m = replicate (length (cells m)) v →
  step m = Some (mkMargolus (w m) (h m) (cells m) (negb (offset m)) (rules m)).
Proof.
  intros Hwf Hrules Hu. pose proof Hwf as (Hw & Hh & Hl & Hint).
  destruct (step_from_preserve m (cells m) (λ n, n = cells m))
    as (m' & Hs & _ & Hc); try done.
  - intros x0 y0 b out n Hx Hy Hb Hout _ _. exfalso.
    destruct (sample_block_slots m x0 y0 b Hwf Hx Hy Hb) as (E0 & E1 & E2 & E3).
    rewrite Hu in E0, E1, E2, E3.
    apply lookup_replicate_1 in E0 as [E0 _]. apply lookup_replicate_1 in E1 as [E1 _].
    apply lookup_replicate_1 in E2 as [E2 _]. apply lookup_replicate_1 in E3 as [E3 _].
    destruct b as [c0 c1 c2 c3]. cbn in *. subst.
    rewrite Hrules, sand_uniform_none in Hout. done.
  - unfold step. rewrite Hs. f_equal.
    rewrite (step_from_record _ _ _ Hs). by rewrite Hc.
Qed.

Lemma steps_shape m n :
  wf m →
  ∃ m', steps n m = Some m' ∧ wf m' ∧
    w m' = w m ∧ h m' = h m ∧ rules m' = rules m ∧
    length (cells m') = length (cells m).
Proof.
  revert m. induction n as [|n IH]; intros m Hwf.
  - exists m. by split_and!.
  - destruct (step_total m Hwf) as (m1 & Hs & Hwf1).
    destruct (IH m1 Hwf1) as (m' & Hrun & Hwf' & Ew & Eh & Er & El).
    pose proof (step_from_fields _ _ _ Hs) as (Ew1 & Eh1 & Er1 & _).
    exists m'. cbn [steps]. rewrite Hs. cbn [mbind option_bind].
    split_and!; try done; try congruence.
    rewrite El. destruct Hwf as (_ & _ & Hl), Hwf1 as (_ & _ & Hl1 & _).
    rewrite Ew1, Eh1 in Hl1. lia.
Qed.

(** X10.  For positive sizes whose product fits an [int] (and whose doubles
    do, as [at] needs) the constructor builds a well-formed grid of [W * H]
    cells in phase 0 under the sand table, all of whose cells read 0 at
    every integer coordinates.  Beyond [INT_MAX] the product [W * H] of the
    constructor overflows, and nothing is said. *)
Theorem new_grid_empty W H x y :
  0 < W → 0 < H →
  2 * W ≤ INT_MAX → 2 * H ≤ INT_MAX → W * H ≤ INT_MAX →
  wf (Margolus_new W H) ∧ offset (Margolus_new W H) = false ∧
  rules (Margolus_new W H) = build_sand_rules ∧
  Z.of_nat (length (cells (Margolus_new W H))) = W * H ∧
  at_get (Margolus_new W H) x y = Some 0.
Proof.
  intros HW HH BW BH BWH.
  assert (wf (Margolus_new W H)) as Hwf.
  { unfold wf, int_sized. cbn. rewrite length_replicate. split_and!; nia. }
  split_and!; try done; [apply Hwf|].
  rewrite at_get_lookup by done. cbn.
  apply lookup_replicate_2.
  pose proof (Z.mod_pos_bound x W HW). pose proof (Z.mod_pos_bound y H HH).
  unfold cidx. nia.
Qed.

Lemma new_grid_empty_witness :
  at_get (Margolus_new 160 120) (-7) 1000 = Some 0.
Proof.
  refine (proj2 (proj2 (proj2 (proj2
    (new_grid_empty 160 120 (-7) 1000 _ _ _ _ _))))); grid_facts.
Defined.

(** X11.  [clear] keeps the sizes, the phase and the rules, leaves a
    well-formed grid whose cells all read 0 and hold no sand, equal to the
    cells of a freshly constructed grid of the same sizes, and clearing
    twice is clearing once. *)
Theorem clear_empties m x y :
  wf m →
  wf (clear m) ∧
  w (clear m) = w m ∧ h (clear m) = h m ∧ offset (clear m) = offset m ∧
  rules (clear m) = rules m ∧
  at_get (clear m) x y = Some 0 ∧
  count_ones (cells (clear m)) = 0 ∧
  cells (clear m) = cells (Margolus_new (w m) (h m)) ∧
  clear (clear m) = clear m.
Proof.
  intros Hwf. pose proof Hwf as (Hw & Hh & Hl & Hint).
  pose proof (wf_clear m Hwf) as Hwfc.
  split_and!; try done.
  - rewrite at_get_lookup by done. rewrite clear_cells. cbn [w h clear].
    apply lookup_replicate_2.
    pose proof (Z.mod_pos_bound x (w m) Hw).
    pose proof (Z.mod_pos_bound y (h m) Hh).
    by apply (cidx_lt (w m) (h m)).
  - rewrite clear_cells. apply count_ones_replicate_0.
  - rewrite clear_cells. cbn. f_equal. lia.
  - unfold clear at 1 3. cbn [w h cells offset rules]. f_equal.
    rewrite !(const_fmap (λ _, 0) _ 0) by done.
    by rewrite clear_cells, length_replicate.
Qed.

Lemma clear_empties_witness :
  at_get (clear (block_grid build_sand_rules (mkBlock 3 1 0 2))) 5 (-3) = Some 0.
Proof.
  refine (proj1 (proj2 (proj2 (proj2 (proj2 (proj2
    (clear_empties (block_grid build_sand_rules (mkBlock 3 1 0 2)) 5 (-3) _))))))).
  grid_facts.
Defined.

(** X12.  Under the sand table a grid whose cells all hold the same value,
    whatever the value and the parity of the sizes, is a fixed point of
    [step]: only the phase flips. *)
Theorem uniform_grid_fixed m v :
  wf m → rules m = build_sand_rules →
  cells m = replicate (length (cells m)) v →
  step m = Some (mkMargolus (w m) (h m) (cells m) (negb (offset m)) (rules m)).
Proof. apply uniform_step. Qed.

Lemma uniform_grid_fixed_witness :
  step source_grid = Some (mkMargolus 2 2 [3;3;3;3] true build_sand_rules).
Proof.
  apply (uniform_grid_fixed source_grid 3).
  - grid_facts.
  - reflexivity.
  - reflexivity.
Defined.

(** X13.  An empty grid stays empty: after [clear], any number of steps
    under the sand table leaves every cell 0, and the phase has flipped once
    per step. *)
Theorem empty_stays_empty m n :
  wf m → rules m = build_sand_rules →
  steps n (clear m) =
  Some (mkMargolus (w m) (h m) (cells (clear m))
          (xorb (offset m) (Nat.odd n)) (rules m)).
Proof.
  intros Hwf Hrules.
  assert (∀ o,
    steps n (mkMargolus (w m) (h m) (cells (clear m)) o (rules m)) =
    Some (mkMargolus (w m) (h m) (cells (clear m)) (xorb o (Nat.odd n))
            (rules m))) as Hgen.
  { induction n as [|n IH]; intros o.
    - cbn. by rewrite xorb_false_r.
    - cbn [steps].
      rewrite (uniform_step _ 0); cbn [w h cells offset rules].
      + cbn [mbind option_bind]. rewrite IH. do 2 f_equal.
        rewrite Nat.odd_succ, <- Nat.negb_odd.
        by destruct o, (Nat.odd n).
      + apply (wf_set_cells m); [done|]. cbn. by rewrite length_fmap.
      + done.
      + rewrite clear_cells. by rewrite length_replicate. }
  apply (Hgen (offset m)).
Qed.

Lemma empty_stays_empty_witness :
  steps 5 (clear (block_grid build_sand_rules (mkBlock 3 1 0 2)))
  = Some (mkMargolus 2 2 [0;0;0;0] true build_sand_rules).
Proof.
  apply (empty_stays_empty (block_grid build_sand_rules (mkBlock 3 1 0 2)) 5).
  - grid_facts.
  - reflexivity.
Defined.

(** X14.  Any number of steps, under any rule table, completes on a
    well-formed grid and keeps it well formed, with the same sizes, rules
    and number of cells. *)
Theorem steps_keep_shape m n :
  wf m →
  ∃ m', steps n m = Some m' ∧ wf m' ∧
    w m' = w m ∧ h m' = h m ∧ rules m' = rules m ∧
    length (cells m') = length (cells m).
Proof. apply steps_shape. Qed.

Lemma steps_keep_shape_witness :
  ∃ m', steps 4 seam_grid = Some m' ∧ length (cells m') = 6%nat.
Proof.
  destruct (steps_keep_shape seam_grid 4) as (m' & Hs & _ & _ & _ & _ & Hl).
  - grid_facts.
  - exists m'. split; [exact Hs|exact Hl].
Defined.

(** ** Further properties of [step] *)

(** On a grid with even sizes, [step] replaces a block of the partition by
    the output of its first matching rule, and keeps it when there is
    none. *)
Lemma step_block m x0 y0 b :
  wf m → even_dims m → is_anchor m x0 y0 →
  sample_block m x0 y0 = Some b →
  ∃ m', step m = Some m' ∧ wf m' ∧
    sample_block m' x0 y0 = Some (default b (apply_one_block (rules m) b)).
Proof.
  intros Hwf Hev Hanc Hb.
  pose proof Hwf as (Hw & Hh & Hl & Hint). pose proof Hev as (Hew & Heh).
  pose proof Hanc as (Hx & Hy & Halx & Haly).
  pose proof (phase_off_cases m) as Ho.
  destruct (step_from_even_cells m (cells m) Hwf Hev Hl)
    as (m' & Hs & Hwf' & Hcells).
  exists m'. split; [done|]. split; [done|].
  pose proof (step_from_fields _ _ _ Hs) as (Ew & Eh & _).
  destruct (anchor_self (phase_off m) (w m) x0 Hx Halx) as (Hax & Hsx).
  destruct (anchor_self (phase_off m) (h m) y0 Hy Haly) as (Hay & Hsy).
  destruct (anchor_next _ _ Ho Hw Hew x0 Hx Halx) as (Haxr & Hsxr & _).
  destruct (anchor_next _ _ Ho Hh Heh y0 Hy Haly) as (Hayd & Hsyd & _).
  pose proof (rem_succ_range _ _ Hx) as Hxr.
  pose proof (rem_succ_range _ _ Hy) as Hyd.
  destruct (sample_block_slots m x0 y0 b Hwf Hx Hy Hb) as (E0 & E1 & E2 & E3).
  rewrite (sample_block_lookup m') by lia. rewrite Ew, Eh.
  rewrite !Hcells by done. unfold block_result, block_output, slot_of.
  rewrite Hax, Hay, Haxr, Hayd, Hb, Hsx, Hsy, Hsxr, Hsyd.
  cbn [mbind option_bind].
  destruct (apply_one_block (rules m) b) as [[o0 o1 o2 o3]|]; cbn.
  - done.
  - rewrite E0, E1, E2, E3. cbn. by destruct b.
Qed.

(** A slot that a sand rule leaves with a value other than 0 and 1 held that
    value already. *)
Lemma sand_created b out :
  apply_one_block build_sand_rules b = Some out →
  ∀ k, (k < 4)%nat → slot out k ≠ 0 → slot out k ≠ 1 → slot b k = slot out k.
Proof.
  destruct b as [a b c d]. intros Hout k Hk. cbn -[Z.eqb] in Hout.
  eqb_cases; try discriminate; injection Hout as <-;
    (destruct k as [|[|[|[|?]]]]; cbn; lia).
Qed.

Lemma insert_from (n : list Z) (j i : nat) (x v : Z) :
  <[j := x]> n !! i = Some v → (j = i ∧ x = v) ∨ n !! i = Some v.
Proof.
  intros Hv. apply list_lookup_insert_Some in Hv.
  destruct Hv as [(Hj & Hx & _)|(_ & Hv)]; auto.
Qed.

(** Under the sand table, the cells that hold a value other than 0 and 1 are
    the same, with the same values, before and after [step]. *)
Lemma step_terrain m :
  wf m → rules m = build_sand_rules →
  ∃ m', step m = Some m' ∧ wf m' ∧
    ∀ i v, v ≠ 0 → v ≠ 1 →
      (cells m' !! i = Some v ↔ cells m !! i = Some v).
Proof.
  intros Hwf Hrules.
  destruct (step_from_preserve m (cells m)
    (λ n, ∀ i v, v ≠ 0 → v ≠ 1 → (n !! i = Some v ↔ cells m !! i = Some v)))
    as (m' & Hs & Hwf' & Hfix); try done; [apply Hwf| |by exists m'].
  intros x0 y0 b out n Hx Hy Hb Hout _ Hn i v Hv0 Hv1.
  rewrite Hrules in Hout.
  destruct (sample_block_slots m x0 y0 b Hwf Hx Hy Hb) as (E0 & E1 & E2 & E3).
  pose proof (sand_fixed b out Hout) as Hk.
  pose proof (sand_created b out Hout) as Hc.
  unfold put_block. split.
  - intros Hi.
    apply insert_from in Hi as [[<- <-]|Hi];
      [rewrite E3; f_equal; apply (Hc 3%nat); [lia|done..]|].
    apply insert_from in Hi as [[<- <-]|Hi];
      [rewrite E2; f_equal; apply (Hc 2%nat); [lia|done..]|].
    apply insert_from in Hi as [[<- <-]|Hi];
      [rewrite E1; f_equal; apply (Hc 1%nat); [lia|done..]|].
    apply insert_from in Hi as [[<- <-]|Hi];
      [rewrite E0; f_equal; apply (Hc 0%nat); [lia|done..]|].
    by apply Hn.
  - intros Hi. repeat apply insert_keeps; [by apply Hn|..].
    + intros <-. rewrite E0 in Hi. injection Hi as <-.
      apply (Hk 0%nat); [lia|done..].
    + intros <-. rewrite E1 in Hi. injection Hi as <-.
      apply (Hk 1%nat); [lia|done..].
    + intros <-. rewrite E2 in Hi. injection Hi as <-.
      apply (Hk 2%nat); [lia|done..].
    + intros <-. rewrite E3 in Hi. injection Hi as <-.
      apply (Hk 3%nat); [lia|done..].
Qed.

(** Without a source in the block, a sand rule keeps the number of 1s. *)
Lemma sand_ones_no_source b out :
  apply_one_block build_sand_rules b = Some out →
  (∀ k, (k < 4)%nat → slot b k ≠ 3) →
  block_ones out = block_ones b.
Proof.
  destruct b as [a b c d]. intros Hout Hb.
  pose proof (Hb 0%nat ltac:(lia)). pose proof (Hb 1%nat ltac:(lia)).
  pose proof (Hb 2%nat ltac:(lia)). pose proof (Hb 3%nat ltac:(lia)).
  clear Hb. cbn -[Z.eqb] in *.
  eqb_cases; try discriminate; injection Hout as <-;
    unfold block_ones, is_one; cbn -[Z.eqb]; eqb_cases; lia.
Qed.

(** One step of a grid with even sizes and without sources keeps the number
    of grains. *)
Lemma step_conserves m :
  wf m → even_dims m → rules m = build_sand_rules →
  Forall (λ v, v ≠ 3) (cells m) →
  ∃ m', step m = Some m' ∧ count_ones (cells m') = count_ones (cells m).
Proof.
  intros Hwf Hev Hrules Hno.
  pose proof Hwf as (Hw & Hh & Hl & Hint). pose proof Hev as (Hew & Heh).
  pose proof (phase_off_cases m) as Ho.
  destruct (step_loops_even m (cells m)
              (λ n, count_ones n = count_ones (cells m)) Hwf Hev Hl)
    as (n' & Hrun & _ & Hcount & _); [done| |].
  - intros x0 y0 b out n (Hx & Hy & Halx & Haly) Hb Hout Hlen Hkeep Hn.
    rewrite Hrules in Hout.
    destruct (sample_block_slots m x0 y0 b Hwf Hx Hy Hb) as (E0 & E1 & E2 & E3).
    destruct (anchor_self (phase_off m) (w m) x0 Hx Halx) as (Hax & _).
    destruct (anchor_self (phase_off m) (h m) y0 Hy Haly) as (Hay & _).
    destruct (anchor_next _ _ Ho Hw Hew x0 Hx Halx) as (Haxr & _ & Hxr).
    destruct (anchor_next _ _ Ho Hh Heh y0 Hy Haly) as (Hayd & _ & Hyd).
    pose proof (rem_succ_range _ _ Hx) as Hxr'.
    pose proof (rem_succ_range _ _ Hy) as Hyd'.
    rewrite (count_ones_put_block _ _ _ _ b); try done; try (by rewrite Hkeep).
    rewrite (sand_ones_no_source b out Hout); [lia|].
    intros [|[|[|[|?]]]] ?; cbn; try lia;
      by eapply (Forall_lookup_1 (λ v, v ≠ 3) (cells m)).
  - unfold step, step_from. rewrite Hrun. cbn. eauto.
Qed.

(** X15.  On a well-formed grid with even sizes, one [step] replaces every
    block of the current partition by the output of the first rule that
    matches it, directly or mirrored, and leaves it as it is when no rule
    does. *)
Theorem step_rewrites_block m x0 y0 b :
  wf m → even_dims m → is_anchor m x0 y0 →
  sample_block m x0 y0 = Some b →
  ∃ m', step m = Some m' ∧
    sample_block m' x0 y0 = Some (default b (apply_one_block (rules m) b)).
Proof.
  intros Hwf Hev Hanc Hb.
  destruct (step_block m x0 y0 b Hwf Hev Hanc Hb) as (m' & Hs & _ & Hb').
  by exists m'.
Qed.

Lemma step_rewrites_block_witness :
  ∃ m', step (block_grid build_sand_rules (mkBlock 3 1 0 2)) = Some m' ∧
    sample_block m' 0 0 = Some (mkBlock 3 1 1 2).
Proof.
  apply (step_rewrites_block (block_grid build_sand_rules (mkBlock 3 1 0 2))
           0 0 (mkBlock 3 1 0 2)).
  - grid_facts.
  - grid_facts.
  - vm_compute. split_and!; auto; discriminate.
  - reflexivity.
Defined.

(** X16.  [step] is local: two well-formed grids with the same even sizes,
    phase and rules that hold the same four cells in a block of the
    partition hold the same four cells in that block after one step,
    whatever the rest of the grids. *)
Theorem step_local m1 m2 x0 y0 :
  wf m1 → wf m2 → even_dims m1 →
  w m2 = w m1 → h m2 = h m1 → offset m2 = offset m1 → rules m2 = rules m1 →
  is_anchor m1 x0 y0 →
  sample_block m2 x0 y0 = sample_block m1 x0 y0 →
  ∃ m1' m2', step m1 = Some m1' ∧ step m2 = Some m2' ∧
    sample_block m2' x0 y0 = sample_block m1' x0 y0.
Proof.
  intros Hwf1 Hwf2 Hev Ew Eh Eo Er Hanc Hsame.
  pose proof Hanc as (Hx & Hy & _).
  destruct (sample_block_Some m1 x0 y0 Hwf1 Hx Hy) as (b & Hb & _).
  assert (even_dims m2) as Hev2 by (unfold even_dims; by rewrite Ew, Eh).
  assert (is_anchor m2 x0 y0) as Hanc2
    by (unfold is_anchor, phase_off in *; by rewrite Ew, Eh, Eo).
  destruct (step_block m1 x0 y0 b Hwf1 Hev Hanc Hb) as (m1' & Hs1 & _ & Hb1).
  rewrite <- Hsame in Hb.
  destruct (step_block m2 x0 y0 b Hwf2 Hev2 Hanc2 Hb) as (m2' & Hs2 & _ & Hb2).
  exists m1', m2'. split_and!; [done..|]. by rewrite Hb1, Hb2, Er.
Qed.

Lemma step_local_witness :
  ∃ m1' m2',
    step (mkMargolus 4 2 [3;1;0;0; 0;2;0;0] false build_sand_rules) = Some m1' ∧
    step (mkMargolus 4 2 [3;1;1;1; 0;2;0;2] false build_sand_rules) = Some m2' ∧
    sample_block m2' 0 0 = sample_block m1' 0 0.
Proof.
  apply step_local; try reflexivity.
  - grid_facts.
  - grid_facts.
  - grid_facts.
  - vm_compute. split_and!; auto; discriminate.
Defined.

(** X17.  Under the sand table the terrain never changes: for every value
    other than 0 and 1 (ground, source, or anything a caller stored), the
    cells that hold it after [step] are exactly the cells that held it
    before, on every well-formed grid. *)
Theorem terrain_is_static m :
  wf m → rules m = build_sand_rules →
  ∃ m', step m = Some m' ∧
    ∀ i v, v ≠ 0 → v ≠ 1 →
      (cells m' !! i = Some v ↔ cells m !! i = Some v).
Proof.
  intros Hwf Hrules.
  destruct (step_terrain m Hwf Hrules) as (m' & Hs & _ & Hfix). by exists m'.
Qed.

Lemma terrain_is_static_witness :
  ∃ m', step seam_grid = Some m' ∧
    (cells m' !! 3%nat = Some 2 ↔ cells seam_grid !! 3%nat = Some 2).
Proof.
  destruct (terrain_is_static seam_grid) as (m' & Hs & Hfix).
  - grid_facts.
  - reflexivity.
  - exists m'. split; [exact Hs|]. apply Hfix; discriminate.
Defined.

(** X18.  Without sources sand is conserved: on a well-formed grid with even
    sizes that holds no 3, any number of steps under the sand table leaves
    the number of cells holding 1 unchanged. *)
Theorem sand_conserved m n :
  wf m → even_dims m → rules m = build_sand_rules →
  Forall (λ v, v ≠ 3) (cells m) →
  ∃ m', steps n m = Some m' ∧ count_ones (cells m') = count_ones (cells m).
Proof.
  revert m. induction n as [|n IH]; intros m Hwf Hev Hrules Hno.
  - by exists m.
  - destruct (step_conserves m Hwf Hev Hrules Hno) as (m1 & Hs & Hc).
    destruct (step_terrain m Hwf Hrules) as (m1' & Hs' & Hwf1 & Hfix).
    rewrite Hs in Hs'. injection Hs' as <-.
    pose proof (step_from_fields _ _ _ Hs) as (Ew & Eh & Er & _).
    destruct (IH m1) as (m' & Hrun & Hc'); try done.
    + unfold even_dims. by rewrite Ew, Eh.
    + by rewrite Er.
    + apply Forall_lookup_2. intros i v Hi ->.
      apply Hfix in Hi; [|done..].
      by apply (Forall_lookup_1 _ _ _ _ Hno Hi).
    + exists m'. cbn [steps]. rewrite Hs. cbn [mbind option_bind].
      split; [done|]. by rewrite Hc'.
Qed.

Lemma sand_conserved_witness :
  ∃ m', steps 3 (mkMargolus 4 2 [1;1;0;2; 0;0;1;2] false build_sand_rules)
        = Some m' ∧
    count_ones (cells m') = 3.
Proof.
  apply (sand_conserved
           (mkMargolus 4 2 [1;1;0;2; 0;0;1;2] false build_sand_rules) 3).
  - grid_facts.
  - grid_facts.
  - reflexivity.
  - repeat constructor; discriminate.
Defined.

(** X19.  Sand falls: whenever a rule of the sand table rewrites a block, no
    slot of the top row gains a grain, no slot of the bottom row loses one,
    and the bottom row ends with more grains than it had. *)
Theorem sand_falls b out :
  apply_one_block build_sand_rules b = Some out →
  is_one (blk0 out) ≤ is_one (blk0 b) ∧ is_one (blk1 out) ≤ is_one (blk1 b) ∧
  is_one (blk2 b) ≤ is_one (blk2 out) ∧ is_one (blk3 b) ≤ is_one (blk3 out) ∧
  is_one (blk2 b) + is_one (blk3 b) < is_one (blk2 out) + is_one (blk3 out).
Proof.
  destruct b as [a b c d]. intros Hout. cbn -[Z.eqb] in Hout.
  eqb_cases; try discriminate; injection Hout as <-;
    unfold is_one; cbn -[Z.eqb]; eqb_cases; lia.
Qed.

Lemma sand_falls_witness :
  is_one (blk2 (mkBlock 0 1 2 0)) + is_one (blk3 (mkBlock 0 1 2 0))
  < is_one (blk2 (mkBlock 0 0 2 1)) + is_one (blk3 (mkBlock 0 0 2 1)).
Proof.
  refine (proj2 (proj2 (proj2 (proj2
    (sand_falls (mkBlock 0 1 2 0) (mkBlock 0 0 2 1) _))))).
  reflexivity.
Defined.

(** X20.  The sand table is left-right symmetric with one exception: the
    decision for the mirror of a block is the mirror of the decision for the
    block, for every block but (3,3,0,0), two sources over two empty cells,
    where the direct match of the source rule wins and the grain always
    appears on the left. *)
Theorem sand_mirror_symmetry b :
  (apply_one_block build_sand_rules (mirror_h b) =
   mirror_h <$> apply_one_block build_sand_rules b
   ↔ b ≠ mkBlock 3 3 0 0) ∧
  apply_one_block build_sand_rules (mkBlock 3 3 0 0) = Some (mkBlock 3 3 1 0).
Proof.
  split; [|reflexivity]. split.
  - intros He ->. vm_compute in He. discriminate.
  - destruct b as [a b c d]. intros Hne. cbn -[Z.eqb].
    eqb_cases; try reflexivity; try (exfalso; by apply Hne).
Qed.

(** X21.  Even sizes matter: with an odd width the last block of a row wraps
    onto column 0 and overlaps the first one, and a block that matches no
    rule can be changed by its neighbour.  On the 3x2 grid [seam_grid] the
    block anchored at (2,0) holds (3,1,3,2), matches no rule of the sand
    table, and holds (3,0,3,2) after one step. *)
Theorem odd_width_seam :
  ∃ m x0 y0 b,
    wf m ∧ h m mod 2 = 0 ∧ w m mod 2 = 1 ∧ rules m = build_sand_rules ∧
    0 ≤ x0 < w m ∧ 0 ≤ y0 < h m ∧
    (x0 - phase_off m) mod 2 = 0 ∧ (y0 - phase_off m) mod 2 = 0 ∧
    sample_block m x0 y0 = Some b ∧
    (∀ r, r ∈ rules m → rule_matches r b = false) ∧
    ∃ m', step m = Some m' ∧ sample_block m' x0 y0 ≠ Some b.
Proof.
  exists seam_grid, 2, 0, (mkBlock 3 1 3 2).
  split_and!; try grid_facts.
  - by apply apply_one_block_None.
  - eexists. split; [vm_compute; reflexivity|]. vm_compute. discriminate.
Qed.

(** ** [randomize] *)

Lemma random_cells_domain {D : Type} (ltb : D → D → bool) (draw : nat → D)
    p l :
  Forall in_domain (random_cell ltb draw p <$> l).
Proof.
  apply Forall_fmap, Forall_forall. intros k _. unfold random_cell, in_domain.
  cbn. case_match; lia.
Qed.

(** X22.  On a well-formed grid [randomize] completes, keeps the sizes, the
    phase, the rules and the number of cells, and stores in every cell [i]
    the value 1 when the [i]-th draw of the freshly seeded generator is
    below the fill probability and 0 otherwise; no cell holds anything but 0
    or 1 afterwards. *)
Theorem randomize_cells {D : Type} (ltb : D → D → bool) (draw : nat → D)
    (p : D) m :
  wf m →
  ∃ m', randomize ltb draw p m = Some m' ∧ wf m' ∧
    w m' = w m ∧ h m' = h m ∧ offset m' = offset m ∧ rules m' = rules m ∧
    (∀ i, (i < length (cells m))%nat →
       cells m' !! i = Some (if ltb (draw i) p then 1 else 0)) ∧
    Forall (λ v, v = 0 ∨ v = 1) (cells m').
Proof.
  intros Hwf. pose proof Hwf as (Hw & Hh & Hl & Hint).
  eexists. split; [by apply randomize_fill|]. cbn [w h cells offset rules].
  split_and!; try done.
  - apply (wf_set_cells m); [done|]. rewrite length_fmap, length_seq. lia.
  - intros i Hi. rewrite list_lookup_fmap, lookup_seq_lt by lia. done.
  - apply Forall_fmap, Forall_forall. intros k _. unfold random_cell.
    cbn. case_match; auto.
Qed.

Lemma randomize_cells_witness :
  ∃ m', randomize Z.ltb (λ k, Z.of_nat k mod 3) 1 source_grid = Some m' ∧
    cells m' !! 2%nat = Some 0.
Proof.
  destruct (randomize_cells Z.ltb (λ k, Z.of_nat k mod 3) 1 source_grid)
    as (m' & Hr & _ & _ & _ & _ & _ & Hc & _).
  - grid_facts.
  - exists m'. split; [exact Hr|]. apply (Hc 2%nat). cbn. lia.
Defined.

(** X23.  [randomize] re-seeds at every call and forgets the grid it is
    given: two well-formed grids of the same sizes get the same cells for
    the same fill probability, whatever they held, and randomizing a second
    time changes nothing. *)
Theorem randomize_forgets {D : Type} (ltb : D → D → bool) (draw : nat → D)
    (p : D) m1 m2 :
  wf m1 → wf m2 → w m2 = w m1 → h m2 = h m1 →
  ∃ m1' m2', randomize ltb draw p m1 = Some m1' ∧
    randomize ltb draw p m2 = Some m2' ∧
    cells m2' = cells m1' ∧
    randomize ltb draw p m1' = Some m1'.
Proof.
  intros Hwf1 Hwf2 Ew Eh. pose proof Hwf1 as (Hw & Hh & Hl & Hint).
  do 2 eexists. split; [by apply randomize_fill|].
  split; [by apply randomize_fill|]. split.
  - cbn. by rewrite Ew, Eh.
  - rewrite randomize_fill; [done|].
    apply (wf_set_cells m1); [done|]. rewrite length_fmap, length_seq. lia.
Qed.

Lemma randomize_forgets_witness :
  ∃ m1' m2',
    randomize Z.ltb (λ k, Z.of_nat k mod 3) 1 source_grid = Some m1' ∧
    randomize Z.ltb (λ k, Z.of_nat k mod 3) 1 (Margolus_new 2 2) = Some m2' ∧
    cells m2' = cells m1' ∧
    randomize Z.ltb (λ k, Z.of_nat k mod 3) 1 m1' = Some m1'.
Proof.
  apply randomize_forgets; try reflexivity; grid_facts.
Defined.

(** ** The callers in [main] *)

Lemma in_grid_spec gx gy :
  in_grid gx gy = true ↔ 0 ≤ gx < GRID_W ∧ 0 ≤ gy < GRID_H.
Proof.
  unfold in_grid.
  destruct (Z.leb_spec 0 gx), (Z.ltb_spec gx GRID_W), (Z.leb_spec 0 gy),
    (Z.ltb_spec gy GRID_H); cbn; split; intros; try done; lia.
Qed.

(** The invariant of the grid of [main]. *)
Lemma at_set_domain m x y v :
  wf m → Forall in_domain (cells m) → in_domain v →
  ∃ m', at_set m x y v = Some m' ∧ wf m' ∧
    w m' = w m ∧ h m' = h m ∧ offset m' = offset m ∧ rules m' = rules m ∧
    Forall in_domain (cells m').
Proof.
  intros Hwf Hdom Hv. eexists. split; [by apply at_set_insert|].
  split_and!; try done.
  - apply wf_set_cells; [done|]. by rewrite length_insert.
  - cbn. by apply Forall_insert.
Qed.

(** X24.  The bounds check of the mouse handlers accepts a pixel position
    exactly when it lies less than one cell left of or above the window
    origin, or inside the window: because the division by the cell size
    truncates toward zero, the pixels -5 .. -1 count as column or row 0. *)
Theorem mouse_guard mx my :
  in_grid (grid_coord mx) (grid_coord my) = true ↔
  - CELL_SIZE < mx < GRID_W * CELL_SIZE ∧
  - CELL_SIZE < my < GRID_H * CELL_SIZE.
Proof.
  rewrite in_grid_spec. unfold grid_coord, CELL_SIZE, GRID_W, GRID_H.
  Z.quot_rem_to_equations. lia.
Qed.

(** X25.  Painting with the left button never fails on the grid of [main]:
    outside the guard it leaves the automaton as it is, inside it stores the
    brush state in the cell [(mx / 6, my / 6)], at index [gy * 160 + gx] of
    the vector, without wrapping, and changes nothing else. *)
Theorem paint_effect brush mx my s :
  wf s → w s = GRID_W → h s = GRID_H →
  paint brush mx my s =
  Some (if in_grid (grid_coord mx) (grid_coord my)
        then mkMargolus (w s) (h s)
               (<[Z.to_nat (grid_coord my * GRID_W + grid_coord mx) := brush]>
                  (cells s))
               (offset s) (rules s)
        else s).
Proof.
  intros Hwf Ew Eh. unfold paint.
  destruct (in_grid (grid_coord mx) (grid_coord my)) eqn:Hg; [|done].
  apply in_grid_spec in Hg as (Hx & Hy).
  rewrite at_set_insert by done. unfold cidx.
  rewrite Ew, Eh, !Z.mod_small by done. done.
Qed.

Lemma paint_effect_witness :
  paint 2 (-3) 13 (Margolus_new 160 120) =
  Some (mkMargolus 160 120
          (<[320%nat := 2]> (cells (Margolus_new 160 120))) false
          build_sand_rules).
Proof.
  apply (paint_effect 2 (-3) 13 (Margolus_new 160 120)); try reflexivity.
  grid_facts.
Defined.

(** X26.  The right button cycles a cell through the four states: on a cell
    that holds a state [v] of 0..3 it stores [(v + 1) mod 4] and touches
    nothing else, and four clicks on the same cell bring the automaton back
    to where it was. *)
Theorem cycle_cell_period mx my s v :
  wf s → in_grid (grid_coord mx) (grid_coord my) = true →
  at_get s (grid_coord mx) (grid_coord my) = Some v → 0 ≤ v ≤ 3 →
  ∃ s1 s2 s3,
    cycle_cell mx my s = Some s1 ∧
    at_get s1 (grid_coord mx) (grid_coord my) = Some ((v + 1) mod 4) ∧
    cells s1 =
      <[cidx (w s) (grid_coord mx mod w s) (grid_coord my mod h s)
          := (v + 1) mod 4]> (cells s) ∧
    cycle_cell mx my s1 = Some s2 ∧
    cycle_cell mx my s2 = Some s3 ∧
    cycle_cell mx my s3 = Some s.
Proof.
  intros Hwf Hg Hv Hdom. pose proof Hwf as (Hw & Hh & Hl & Hint).
  set (gx := grid_coord mx) in *. set (gy := grid_coord my) in *.
  set (k := cidx (w s) (gx mod w s) (gy mod h s)).
  assert (k < length (cells s))%nat as Hk.
  { apply (cidx_lt (w s) (h s)); [done|by apply Z.mod_pos_bound..]. }
  assert (∀ c u, length c = length (cells s) → c !! k = Some u →
    cycle_cell mx my (mkMargolus (w s) (h s) c (offset s) (rules s)) =
    Some (mkMargolus (w s) (h s) (<[k := Z.rem (u + 1) 4]> c)
            (offset s) (rules s))) as Hcyc.
  { intros c u Hc Hu. unfold cycle_cell. fold gx gy. rewrite Hg.
    rewrite at_get_lookup by done. cbn [w h cells]. fold k. rewrite Hu.
    cbn [mbind option_bind]. rewrite at_set_insert; [done|].
    by apply wf_set_cells. }
  assert (s = mkMargolus (w s) (h s) (cells s) (offset s) (rules s)) as Hs
    by (by destruct s).
  rewrite at_get_lookup in Hv by done. fold k in Hv.
  assert (∀ u, 0 ≤ u ≤ 3 → Z.rem (u + 1) 4 = (u + 1) mod 4) as Hrem
    by (intros u Hu; apply Z.rem_mod_nonneg; lia).
  do 3 eexists. split_and!.
  - rewrite Hs at 1. by apply Hcyc.
  - rewrite at_get_lookup by done. cbn [w h cells]. fold k.
    rewrite list_lookup_insert_eq by done. by rewrite Hrem.
  - cbn [cells]. by rewrite Hrem.
  - apply (Hcyc _ (Z.rem (v + 1) 4)); [by rewrite length_insert|].
    by apply list_lookup_insert_eq.
  - apply (Hcyc _ (Z.rem (Z.rem (v + 1) 4 + 1) 4));
      [by rewrite !length_insert|].
    apply list_lookup_insert_eq. by rewrite length_insert.
  - rewrite (Hcyc _ (Z.rem (Z.rem (Z.rem (v + 1) 4 + 1) 4 + 1) 4)).
    2:{ by rewrite !length_insert. }
    2:{ apply list_lookup_insert_eq. by rewrite !length_insert. }
    rewrite !list_insert_insert_eq.
    rewrite list_insert_id; [by rewrite <- Hs|].
    rewrite Hv. f_equal.
    assert (v = 0 ∨ v = 1 ∨ v = 2 ∨ v = 3) as [->|[->|[->| ->]]] by lia;
      reflexivity.
Qed.

Lemma cycle_cell_period_witness :
  ∃ s1 s2 s3,
    cycle_cell 7 1 (Margolus_new 160 120) = Some s1 ∧
    at_get s1 (grid_coord 7) (grid_coord 1) = Some ((0 + 1) mod 4) ∧
    cells s1 =
      <[cidx 160 (grid_coord 7 mod 160) (grid_coord 1 mod 120)
          := (0 + 1) mod 4]> (cells (Margolus_new 160 120)) ∧
    cycle_cell 7 1 s1 = Some s2 ∧
    cycle_cell 7 1 s2 = Some s3 ∧
    cycle_cell 7 1 s3 = Some (Margolus_new 160 120).
Proof.
  apply (cycle_cell_period 7 1 (Margolus_new 160 120) 0).
  - grid_facts.
  - reflexivity.
  - reflexivity.
  - lia.
Defined.

(** X27.  The four states are drawn in four different colours, and every
    other value in the colour [Magenta], which none of the four states
    uses. *)
Theorem color_for_state_distinct s t :
  (color_for_state s = color_for_state t →
   s = t ∨ (¬ 0 ≤ s ≤ 3 ∧ ¬ 0 ≤ t ≤ 3)) ∧
  (color_for_state s = Magenta ↔ ¬ 0 ≤ s ≤ 3).
Proof.
  unfold color_for_state, Magenta, rgb. split.
  - intros He. eqb_cases; try discriminate; (left; lia) || (right; lia).
  - split.
    + intros He. eqb_cases; try discriminate; lia.
    + intros Hs. eqb_cases; reflexivity.
Qed.

(** On a well-formed grid [at] reads a cell of the vector. *)
Lemma at_toroidal_get m x y :
  wf m →
  ∃ v, at_get m x y = Some v ∧
    cells m !! cidx (w m) (x mod w m) (y mod h m) = Some v.
Proof.
  intros (Hw & Hh & Hl & Hint). rewrite at_get_lookup by done.
  pose proof (Z.mod_pos_bound x (w m) Hw).
  pose proof (Z.mod_pos_bound y (h m) Hh).
  destruct (lookup_lt_is_Some_2 (cells m) _
              (cidx_lt (w m) (h m) _ _ _ Hl ltac:(done) ltac:(done)))
    as [v Hv].
  by exists v.
Qed.

(** ** The event loop keeps the grid sound *)

Lemma step_ok s : grid_ok s → ∃ s', step s = Some s' ∧ grid_ok s'.
Proof.
  intros (Hwf & Ew & Eh & Er & Hdom).
  destruct (step_from_preserve s (cells s) (Forall in_domain))
    as (s' & Hs & Hwf' & Hdom'); try done; [apply Hwf| |].
  - intros x0 y0 b out n Hx Hy Hb Hout _ Hn. rewrite Er in Hout.
    destruct (sample_block_slots s x0 y0 b Hwf Hx Hy Hb) as (E0 & E1 & E2 & E3).
    assert (∀ k, (k < 4)%nat → in_domain (slot out k)) as Hk.
    { apply (sand_domain b); [done|].
      intros [|[|[|[|?]]]] ?; cbn; try lia;
        by eapply (Forall_lookup_1 in_domain (cells s)). }
    unfold put_block. repeat apply Forall_insert; try done.
    + apply (Hk 0%nat); lia.
    + apply (Hk 1%nat); lia.
    + apply (Hk 2%nat); lia.
    + apply (Hk 3%nat); lia.
  - exists s'. split; [done|].
    pose proof (step_from_fields _ _ _ Hs) as (Ew' & Eh' & Er' & _).
    unfold grid_ok. split_and!; try done; congruence.
Qed.

Lemma steps_ok n : ∀ s, grid_ok s → ∃ s', steps n s = Some s' ∧ grid_ok s'.
Proof.
  induction n as [|n IH]; intros s Hok.
  - by exists s.
  - destruct (step_ok s Hok) as (s1 & Hs & Hok1).
    destruct (IH s1 Hok1) as (s' & Hrun & Hok').
    exists s'. cbn [steps]. rewrite Hs. done.
Qed.

Lemma clear_ok s : grid_ok s → grid_ok (clear s).
Proof.
  intros (Hwf & Ew & Eh & Er & Hdom). unfold grid_ok.
  split_and!; try done; [by apply wf_clear|].
  rewrite clear_cells. apply Forall_replicate. unfold in_domain. lia.
Qed.

Lemma randomize_ok {D : Type} (ltb : D → D → bool) (draw : nat → D) p s :
  wf s → w s = GRID_W → h s = GRID_H → rules s = build_sand_rules →
  ∃ s', randomize ltb draw p s = Some s' ∧ grid_ok s'.
Proof.
  intros Hwf Ew Eh Er. pose proof Hwf as (Hw & Hh & Hl & Hint).
  eexists. split; [by apply randomize_fill|].
  unfold grid_ok. cbn [w h cells rules]. split_and!; try done.
  - apply (wf_set_cells s); [done|]. rewrite length_fmap, length_seq. lia.
  - apply random_cells_domain.
Qed.

Lemma set_cell_ok s x y v :
  grid_ok s → in_domain v → ∃ s', at_set s x y v = Some s' ∧ grid_ok s'.
Proof.
  intros (Hwf & Ew & Eh & Er & Hdom) Hv.
  destruct (at_set_domain s x y v Hwf Hdom Hv)
    as (s' & Hs & Hwf' & Ew' & Eh' & _ & Er' & Hdom').
  exists s'. split; [done|]. unfold grid_ok. split_and!; try done; congruence.
Qed.

Lemma paint_ok brush mx my s :
  grid_ok s → 0 ≤ brush ≤ 3 → ∃ s', paint brush mx my s = Some s' ∧ grid_ok s'.
Proof.
  intros Hok Hb. unfold paint. case_match; [|by exists s].
  by apply set_cell_ok.
Qed.

Lemma cycle_ok mx my s :
  grid_ok s → ∃ s', cycle_cell mx my s = Some s' ∧ grid_ok s'.
Proof.
  intros Hok. unfold cycle_cell. case_match; [|by exists s].
  pose proof Hok as (Hwf & _ & _ & _ & Hdom).
  destruct (at_toroidal_get s (grid_coord mx) (grid_coord my) Hwf)
    as (v & Hv & Hin).
  rewrite Hv. cbn [mbind option_bind]. apply set_cell_ok; [done|].
  pose proof (Forall_lookup_1 _ _ _ _ Hdom Hin) as Hvd.
  unfold in_domain in *. rewrite Z.rem_mod_nonneg by lia.
  pose proof (Z.mod_pos_bound (v + 1) 4). lia.
Qed.

Lemma new_grid_ok :
  wf (Margolus_new GRID_W GRID_H) ∧ w (Margolus_new GRID_W GRID_H) = GRID_W ∧
  h (Margolus_new GRID_W GRID_H) = GRID_H ∧
  rules (Margolus_new GRID_W GRID_H) = build_sand_rules.
Proof.
  split_and!; [|reflexivity..].
  unfold wf, int_sized, Margolus_new. cbn [w h cells].
  rewrite length_replicate. unfold GRID_W, GRID_H, INT_MAX. lia.
Qed.

Lemma handle_event_ok {D : Type} (ltb : D → D → bool) (draw : nat → D) p
    ev a :
  app_ok a → ∃ a', handle_event ltb draw p ev a = Some a' ∧ app_ok a'.
Proof.
  intros (Hok & Hb). destruct ev as [|k|lb rb lx ly rx ry|]; cbn [handle_event].
  - eexists. split; [done|]. by split.
  - destruct k; try (eexists; split; [done|]; split; cbn; done || lia).
    + destruct (step_ok _ Hok) as (s' & -> & Hok'). cbn.
      eexists. split; [done|]. by split.
    + eexists. split; [done|]. split; [by apply clear_ok|done].
    + pose proof Hok as (Hwf & Ew & Eh & Er & _).
      destruct (randomize_ok ltb draw p _ Hwf Ew Eh Er) as (s' & -> & Hok').
      cbn. eexists. split; [done|]. by split.
  - assert (∃ s1, (if lb then paint (brush_state a) lx ly (sim a)
                   else Some (sim a)) = Some s1 ∧ grid_ok s1)
      as (s1 & -> & Hok1).
    { destruct lb; [by apply paint_ok|by exists (sim a)]. }
    cbn [mbind option_bind].
    assert (∃ s2, (if rb then cycle_cell rx ry s1 else Some s1) = Some s2
                  ∧ grid_ok s2) as (s2 & -> & Hok2).
    { destruct rb; [by apply cycle_ok|by exists s1]. }
    cbn. eexists. split; [done|]. by split.
  - by exists a.
Qed.

Lemma poll_events_ok {D : Type} (ltb : D → D → bool) (draw : nat → D) p evs :
  ∀ a, app_ok a → ∃ a', poll_events ltb draw p evs a = Some a' ∧ app_ok a'.
Proof.
  induction evs as [|ev evs IH]; intros a Hok; [by exists a|].
  destruct (handle_event_ok ltb draw p ev a Hok) as (a1 & Hh & Hok1).
  cbn [poll_events]. rewrite Hh. cbn. by apply IH.
Qed.

Lemma frame_ok {D : Type} (ltb : D → D → bool) (draw : nat → D) p evs
    timing a :
  app_ok a → ∃ a', frame ltb draw p evs timing a = Some a' ∧ app_ok a'.
Proof.
  intros Hok. unfold frame.
  destruct (poll_events_ok ltb draw p evs a Hok) as (a1 & -> & Hok1).
  cbn [mbind option_bind].
  destruct (running a1); [|by exists a1].
  destruct timing as [nsteps|]; [|by exists a1].
  destruct Hok1 as (Hg & Hb).
  destruct (steps_ok (Z.to_nat nsteps) _ Hg) as (s' & -> & Hg').
  cbn. eexists. split; [done|]. by split.
Qed.

(** X28.  The event loop of [main] keeps the automaton sound: from the
    state [main] starts with, whatever the events of each frame (keys, mouse
    positions and buttons, window closing) and whatever number of steps the
    timer asks for, every access the handlers and [step] make to the vectors
    of the automaton ([cells] and [next]) is in bounds, the grid stays the
    160x120 grid of the window with even sizes and [w * h] cells under the
    sand table, every cell stays in {0,1,2,3} and so does the brush.  The
    vertex array of [update_vertices], the text and the [float] timing,
    with its conversion to the number of steps, are outside the model and
    nothing is said of them. *)
Theorem main_keeps_grid_sound {D : Type} (ltb : D → D → bool) (draw : nat → D)
    (p : D) (frames : list (list Event * option Z)) :
  ∃ a0 a,
    main_init ltb draw p = Some a0 ∧
    main_loop ltb draw p frames a0 = Some a ∧
    app_ok a ∧ even_dims (sim a).
Proof.
  assert (∀ a, app_ok a →
    ∃ a', main_loop ltb draw p frames a = Some a' ∧ app_ok a') as Hloop.
  { induction frames as [|[evs timing] frames IH]; intros a Hok;
      [by exists a|].
    cbn [main_loop]. destruct (window_open a); [|by exists a].
    destruct (frame_ok ltb draw p evs timing a Hok) as (a1 & -> & Hok1).
    cbn [mbind option_bind]. by apply IH. }
  destruct new_grid_ok as (Hwf & Ew & Eh & Er).
  destruct (randomize_ok ltb draw p _ Hwf Ew Eh Er) as (s0 & Hs0 & Hok0).
  clear Hwf Ew Eh Er.
  assert (main_init ltb draw p = Some (mkApp s0 true 1 true)) as Hinit.
  { unfold main_init. rewrite Hs0. reflexivity. }
  clear Hs0.
  assert (app_ok (mkApp s0 true 1 true)) as Ha0.
  { split; [exact Hok0|]. cbn [brush_state]. lia. }
  destruct (Hloop _ Ha0) as (a & Hrun & Hok).
  exists (mkApp s0 true 1 true), a.
  split; [exact Hinit|]. split; [exact Hrun|]. split; [exact Hok|].
  destruct Hok as ((_ & Ew' & Eh' & _) & _).
  unfold even_dims. rewrite Ew', Eh'. split; reflexivity.
Qed.
